(** * ZK Payroll SDK: a shallow embedding of the commitment, nullifier,
      proof-encoding and client code, with the properties of its specification.

    Sources embedded below:
      - [src/crypto/commitment.ts]: blinding factors, Poseidon commitments,
        nullifiers and the scalar codec;
      - [src/crypto/groth16.ts]: proof generation, local verification and the
        G1/G2 point codec;
      - [src/client.ts]: the [ZKPayroll] client (blinding-factor store,
        payments, batch payroll, view keys);
      - [src/types/index.ts]: the records exchanged by the above.

    Conventions.  A [Uint8Array] is a [list Z]; a JavaScript [bigint] is a [Z]
    and its bit operations are those of [Z] (two's complement on negative
    numbers, as in JavaScript); a [number] that the code converts with
    [BigInt(..)] is an integer-valued [Z]; a [Map<string, Uint8Array>] is a
    [gmap string (list Z)]; a field that may be [undefined] at run time is an
    [option].  Code that may throw returns an [outcome]; asynchronous client
    code is run sequentially (one call at a time, no interleaving) over an
    explicit [World].

    What lies outside the repository is a parameter ([Env]): the Poseidon
    hash of circomlibjs, the platform's random source and clock, the
    stellar-sdk contract constructor and RPC server, and the snarkjs prover
    and verifier.  Properties are proved for every behaviour of these,
    including rejection; closed examples use the stand-ins of [Fixtures]. *)

From Stdlib Require Import ZArith Lia List Ascii.
From Stdlib Require Import DecimalString DecimalZ DecimalPos.
From stdpp Require Import base tactics option list numbers strings gmap.

Local Open Scope Z_scope.

(** ** Thrown values and outcomes *)

(** The exceptions the code can raise: [new Error(msg)], the engine's
    [TypeError] / [SyntaxError] / [RangeError], and whatever an external
    collaborator (RPC server, prover) rejects with. *)
Inductive js_error : Type :=
| Error (msg : string)
| TypeError (msg : string)
| SyntaxError (msg : string)
| RangeError (msg : string)
| Rejected (what : string).

(** [String(error)] for the values above: ["<name>: <message>"]. *)
Definition String_of_error (e : js_error) : string :=
  match e with
  | Error m => "Error: " +:+ m
  | TypeError m => "TypeError: " +:+ m
  | SyntaxError m => "SyntaxError: " +:+ m
  | RangeError m => "RangeError: " +:+ m
  | Rejected w => w
  end.

Inductive outcome (A : Type) : Type :=
| Ok (a : A)
| Throw (e : js_error).
Arguments Ok {A} a.
Arguments Throw {A} e.

Definition obind {A B} (o : outcome A) (k : A -> outcome B) : outcome B :=
  match o with
  | Ok a => k a
  | Throw e => Throw e
  end.

Definition is_Ok {A} (o : outcome A) : bool :=
  match o with Ok _ => true | Throw _ => false end.

Notation "'do!' x := o 'in' k" := (obind o (fun x => k))
  (at level 10, x name, o at level 100, k at level 200).

(** ** The scalar codec of [commitment.ts] and [groth16.ts] *)

Module Codec.

(** [new Uint8Array(n)]: [n] zero bytes. *)
Definition Uint8Array_new (n : nat) : list Z := replicate n 0.

(** [bytes[i] = v] on a [Uint8Array]: the store keeps [v] modulo 256 and is
    ignored out of range. *)
Definition u8_store (bytes : list Z) (i : nat) (v : Z) : list Z :=
  <[i := v mod 256]> bytes.

(** [target.set(source, offset)]; a source that does not fit raises
    [RangeError]. *)
Definition u8_set (target source : list Z) (offset : nat) : outcome (list Z) :=
  if decide (offset + length source <= length target)%nat
  then Ok (take offset target ++ source ++ drop (offset + length source) target)
  else Throw (RangeError "offset is out of bounds").

(** [bytes.slice(from, to)]. *)
Definition slice (bytes : list Z) (from to : nat) : list Z :=
  take (to - from) (drop from bytes).

(** The loop of [bytesToBigInt] ([commitment.ts]) and [bytesToFieldElement]
    ([groth16.ts]):
    [for (i = 0; i < bytes.length; i++) result = (result << 8n) | BigInt(bytes[i])]. *)
Fixpoint bytesToBigInt_loop (result : Z) (bytes : list Z) : Z :=
  match bytes with
  | [] => result
  | b :: rest => bytesToBigInt_loop (Z.lor (Z.shiftl result 8) b) rest
  end.

Definition bytesToBigInt (bytes : list Z) : Z := bytesToBigInt_loop 0 bytes.

(** The loop of [bigIntToBytes] and [bigIntToBytes32]:
    [for (i = 31; i >= 0; i--) { bytes[i] = Number(temp & 0xffn); temp = temp >> 8n }].
    The counter [n] is [i + 1]. *)
Fixpoint bigIntToBytes_loop (n : nat) (temp : Z) (bytes : list Z) : list Z :=
  match n with
  | O => bytes
  | S i => bigIntToBytes_loop i (Z.shiftr temp 8) (u8_store bytes i (Z.land temp 255))
  end.

Definition bigIntToBytes (value : Z) : list Z :=
  bigIntToBytes_loop 32 value (Uint8Array_new 32).

Definition bigIntToBytes32 (value : Z) : list Z :=
  bigIntToBytes_loop 32 value (Uint8Array_new 32).

(** [bytes32ToBigInt]: the loop runs over [i < 32] whatever the length of
    [bytes]; a missing byte is [undefined] and [BigInt(undefined)] raises
    [TypeError]. *)
Fixpoint bytes32ToBigInt_loop (n : nat) (i : nat) (result : Z) (bytes : list Z)
  : outcome Z :=
  match n with
  | O => Ok result
  | S n' =>
      match bytes !! i with
      | Some b => bytes32ToBigInt_loop n' (S i) (Z.lor (Z.shiftl result 8) b) bytes
      | None => Throw (TypeError "Cannot convert undefined to a BigInt")
      end
  end.

Definition bytes32ToBigInt (bytes : list Z) : outcome Z :=
  bytes32ToBigInt_loop 32 0 0 bytes.

(** [areEqual(a, b)]. *)
Fixpoint areEqual_loop (a b : list Z) : bool :=
  match a, b with
  | [], _ => true
  | x :: a', y :: b' => if decide (x = y) then areEqual_loop a' b' else false
  | _ :: _, [] => false
  end.

Definition areEqual (a b : list Z) : bool :=
  if decide (length a = length b) then areEqual_loop a b else false.

(** [BigInt(s)] on a string, for the decimal literals the proof system
    exchanges (an optional minus sign and decimal digits; the empty string is
    [0n]).  Anything else is a [SyntaxError] here: the hexadecimal, octal and
    binary literals and the surrounding white space that [BigInt] also accepts
    are not modelled. *)
Definition BigInt_of_string (s : string) : outcome Z :=
  match s with
  | EmptyString => Ok 0
  | _ =>
      match NilZero.int_of_string s with
      | Some d => Ok (Z.of_int d)
      | None => Throw (SyntaxError ("Cannot convert " +:+ s +:+ " to a BigInt"))
      end
  end.

(** [value.toString()] on a [bigint] (and on an integer-valued [number]). *)
Definition BigInt_toString (value : Z) : string :=
  NilZero.string_of_int (Z.to_int value).

(** [bytesToFieldElement]. *)
Definition bytesToFieldElement (bytes : list Z) : string :=
  BigInt_toString (bytesToBigInt bytes).

(** The big-endian, zero-padded 32-byte encoding as the specification words
    it: byte [k] is the [k]-th base-256 digit from the most significant end. *)
Definition scalar_be32 (value : Z) : list Z :=
  map (fun k : nat => (value / 256 ^ (31 - Z.of_nat k)) mod 256) (seq 0 32).

End Codec.

(** ** The records of [types/index.ts] *)

Module Types.

(** [Employee].  [parseEmployeeResult] returns [{} as Employee], so every field
    may be [undefined] at run time. *)
Record Employee : Type := {
  emp_address : option string;
  emp_companyId : option string;
  salaryCommitment : option (list Z);
  emp_isActive : option bool;
  lastPaymentTimestamp : option Z;
}.

Record AddEmployeeParams : Type := {
  add_companyId : string;
  add_employeeAddress : string;
  add_salary : Z;
}.

Record UpdateSalaryParams : Type := {
  upd_companyId : string;
  upd_employeeAddress : string;
  upd_newSalary : Z;
}.

Record DeactivateEmployeeParams : Type := {
  deact_companyId : string;
  deact_employeeAddress : string;
}.

Record ProcessPaymentParams : Type := {
  pay_companyId : string;
  pay_employeeAddress : string;
  pay_amount : Z;
  pay_period : Z;
}.

Record ProcessPayrollParams : Type := {
  roll_companyId : string;
  roll_period : Z;
  roll_employees : option (list string);
}.

Record PaymentResult : Type := {
  success : bool;
  transactionHash : option string;
  error : option string;
  res_period : Z;
  res_employeeAddress : string;
}.

Record Groth16Proof : Type := {
  proof_a : list Z;
  proof_b : list Z;
  proof_c : list Z;
  nullifier : list Z;
}.

(** [GenerateProofParams]; [commitment] is what [processPayment] read from the
    parsed employee, hence possibly [undefined]. *)
Record GenerateProofParams : Type := {
  gp_salary : Z;
  gp_blindingFactor : list Z;
  gp_recipient : string;
  gp_commitment : option (list Z);
}.

(** [ViewKey]; [generateViewKey] returns [{} as ViewKey]. *)
Record ViewKey : Type := {
  vk_id : option (list Z);
  vk_companyId : option string;
  vk_auditor : option string;
  vk_grantedBy : option string;
  vk_createdAt : option Z;
  vk_expiresAt : option Z;
  vk_scope : option string;
}.

(** [GenerateViewKeyParams].  [scope] is the string the [switch] of
    [mapAuditScope] inspects; a [Date] is its [getTime()] in milliseconds. *)
Record GenerateViewKeyParams : Type := {
  gvk_companyId : string;
  gvk_auditorAddress : string;
  gvk_scope : string;
  gvk_durationDays : Z;
  gvk_timeRange : option (Z * Z);
}.

(** The points snarkjs exchanges: decimal strings in projective form. *)
Definition G1 : Type := string * string * string.
Definition G2 : Type := (string * string) * (string * string) * (string * string).

Record SnarkProof : Type := {
  pi_a : G1;
  pi_b : G2;
  pi_c : G1;
}.

Record CircuitInputs : Type := {
  ci_salary : string;
  ci_blindingFactor : string;
  ci_commitment : string;
  ci_nullifier : string;
  ci_recipientHash : string;
}.

Record PublicInputs : Type := {
  pub_commitment : list Z;
  pub_nullifier : list Z;
  pub_recipientHash : string;
}.

(** The value [mapAuditScope] builds for the ledger. *)
Inductive ScopeValue : Type :=
| FullCompany
| AggregateOnly
| TimeRange (start_s end_s : Z).

(** Arguments of a contract call. *)
Inductive ScVal : Type :=
| VStr (s : string)
| VNum (n : Z)
| VBytes (b : list Z)
| VScope (s : ScopeValue)
| VUndefined.

(** [new Contract(address).call(method, ...args)]. *)
Record Operation : Type := {
  op_contract : string;
  op_method : string;
  op_args : list ScVal;
}.

(** What [buildTransaction] builds and [submitTransaction] signs. *)
Record Transaction : Type := {
  tx_fee : string;
  tx_networkPassphrase : string;
  tx_operation : Operation;
  tx_timeout : Z;
  tx_signer : option string;
}.

End Types.
Export Types.

(** ** The world the client runs in *)

Module Runtime.

(** Calls that leave the process, and console output, in order. *)
Inductive Event : Type :=
| GetAccount (publicKey : string)
| SendTransaction (tx : Transaction)
| SimulateTransaction (tx : Transaction)
| FullProve (inputs : CircuitInputs) (wasm zkey : string)
| Groth16Verify (vkeyPath : string) (signals : list string) (proof : SnarkProof)
| ConsoleWarn (msg : string)
| ConsoleError (msg : string).

(** The mutable state: the module variable [poseidonInstance] of
    [commitment.ts], the [blindingFactors] map of the client, the number of
    random buffers drawn so far, and the trace of outside calls. *)
Record World : Type := {
  poseidonInstance : option (list Z -> Z);
  blindingFactors : gmap string (list Z);
  randomDraws : nat;
  trace : list Event;
}.

Definition set_poseidonInstance (p : option (list Z -> Z)) (w : World) : World :=
  {| poseidonInstance := p; blindingFactors := blindingFactors w;
     randomDraws := randomDraws w; trace := trace w |}.

Definition set_blindingFactors (m : gmap string (list Z)) (w : World) : World :=
  {| poseidonInstance := poseidonInstance w; blindingFactors := m;
     randomDraws := randomDraws w; trace := trace w |}.

Definition set_randomDraws (n : nat) (w : World) : World :=
  {| poseidonInstance := poseidonInstance w; blindingFactors := blindingFactors w;
     randomDraws := n; trace := trace w |}.

Definition emit (e : Event) (w : World) : World :=
  {| poseidonInstance := poseidonInstance w; blindingFactors := blindingFactors w;
     randomDraws := randomDraws w; trace := trace w ++ [e] |}.

(** The external collaborators.  Each may answer differently as the world
    changes, and each call that can be rejected returns an [outcome].
    [buildPoseidon] is the circomlibjs hash followed by [F.toObject];
    [getRandomValues d i] is byte [i] of the [d]-th random buffer;
    [Contract_new address] is the stellar-sdk constructor [new Contract(address)],
    which rejects an address it cannot decode.  A rejection by
    [server_getAccount] or [server_sendTransaction] stands for any failure of
    building, signing or sending the transaction. *)
Record Env : Type := {
  buildPoseidon : list Z -> Z;
  getRandomValues : nat -> nat -> Z;
  Date_now : World -> Z;
  Contract_new : string -> outcome unit;
  server_getAccount : World -> string -> outcome unit;
  server_sendTransaction : World -> Transaction -> outcome unit;
  server_simulateTransaction : World -> Transaction -> outcome unit;
  groth16_fullProve : World -> CircuitInputs -> outcome SnarkProof;
  groth16_verify : World -> string -> list string -> SnarkProof -> outcome bool;
}.

(** The client's configuration after the constructor ran:
    [keypair.publicKey()], the network passphrase and the contract addresses. *)
Record Config : Type := {
  publicKey : string;
  networkPassphrase : string;
  registry : string;
  executor : string;
}.

(** Sequential, possibly throwing computations over the world. *)
Definition M (A : Type) : Type := World -> outcome A * World.

Definition ret {A} (a : A) : M A := fun w => (Ok a, w).

Definition throw {A} (e : js_error) : M A := fun w => (Throw e, w).

Definition lift {A} (o : outcome A) : M A := fun w => (o, w).

Definition bind {A B} (m : M A) (k : A -> M B) : M B :=
  fun w =>
    match m w with
    | (Ok a, w') => k a w'
    | (Throw e, w') => (Throw e, w')
    end.

(** [try { m } catch (error) { h error }]. *)
Definition try_catch {A} (m : M A) (h : js_error -> M A) : M A :=
  fun w =>
    match m w with
    | (Ok a, w') => (Ok a, w')
    | (Throw e, w') => h e w'
    end.

Definition log (e : Event) : M unit := fun w => (Ok tt, emit e w).

(** An outside call: the collaborator answers on the current world and the
    call is recorded. *)
Definition call_out {A} (answer : World -> outcome A) (e : Event) : M A :=
  fun w => (answer w, emit e w).

End Runtime.
Export Runtime.

Notation "'let*' x := m 'in' k" := (bind m (fun x => k))
  (at level 10, x name, m at level 100, k at level 200).

(** ** [src/crypto/commitment.ts] *)

Module Commitment.
Import Codec.

(** Reading [bytes.length] (or an element) of a value that may be
    [undefined]. *)
Definition defined (bytes : option (list Z)) : outcome (list Z) :=
  match bytes with
  | Some b => Ok b
  | None => Throw (TypeError "Cannot read properties of undefined (reading 'length')")
  end.

Section WithEnv.
Variable E : Env.

(** [getPoseidon]: builds the hash once and caches it in [poseidonInstance]. *)
Definition getPoseidon : M (list Z -> Z) :=
  fun w =>
    match poseidonInstance w with
    | Some p => (Ok p, w)
    | None => (Ok (buildPoseidon E), set_poseidonInstance (Some (buildPoseidon E)) w)
    end.

(** [generateBlindingFactor]: a fresh 32-byte buffer filled by the platform's
    random source (either branch of the source fills all 32 bytes). *)
Definition generateBlindingFactor : M (list Z) :=
  fun w =>
    let buffer := Uint8Array_new 32 in
    let filled := imap (fun i _ => getRandomValues E (randomDraws w) i mod 256) buffer in
    (Ok filled, set_randomDraws (S (randomDraws w)) w).

(** [generateCommitment(salary, blindingFactor)]. *)
Definition generateCommitment (salary : Z) (blindingFactor : list Z) : M (list Z) :=
  let* poseidon := getPoseidon in
  let salaryBigInt := salary in
  let blindingBigInt := bytesToBigInt blindingFactor in
  let hash := poseidon [salaryBigInt; blindingBigInt] in
  ret (bigIntToBytes hash).

(** [verifyCommitment(commitment, salary, blindingFactor)]. *)
Definition verifyCommitment (commitment : list Z) (salary : Z)
    (blindingFactor : list Z) : M bool :=
  let* computed := generateCommitment salary blindingFactor in
  ret (areEqual commitment computed).

(** [generateNullifier(commitment, period, secret)]. *)
Definition generateNullifier (commitment : option (list Z)) (period : Z)
    (secret : list Z) : M (list Z) :=
  let* poseidon := getPoseidon in
  let* commitmentBytes := lift (defined commitment) in
  let commitmentBigInt := bytesToBigInt commitmentBytes in
  let periodBigInt := period in
  let secretBigInt := bytesToBigInt secret in
  let hash := poseidon [commitmentBigInt; periodBigInt; secretBigInt] in
  ret (bigIntToBytes hash).

End WithEnv.
End Commitment.

(** ** [src/crypto/groth16.ts] *)

Module Groth16.
Import Codec Commitment.

Definition CIRCUIT_WASM_PATH : string := "./circuits/payment.wasm".
Definition CIRCUIT_ZKEY_PATH : string := "./circuits/payment_final.zkey".

(** [encodeG1Point]: the third (projective) component is not read. *)
Definition encodeG1Point (point : G1) : outcome (list Z) :=
  let '(p0, p1, _) := point in
  do! x := BigInt_of_string p0 in
  do! y := BigInt_of_string p1 in
  let result := Uint8Array_new 64 in
  do! result := u8_set result (bigIntToBytes32 x) 0 in
  do! result := u8_set result (bigIntToBytes32 y) 32 in
  Ok result.

(** [encodeG2Point]. *)
Definition encodeG2Point (point : G2) : outcome (list Z) :=
  let '((p00, p01), (p10, p11), _) := point in
  do! x0 := BigInt_of_string p00 in
  do! x1 := BigInt_of_string p01 in
  do! y0 := BigInt_of_string p10 in
  do! y1 := BigInt_of_string p11 in
  let result := Uint8Array_new 128 in
  do! result := u8_set result (bigIntToBytes32 x0) 0 in
  do! result := u8_set result (bigIntToBytes32 x1) 32 in
  do! result := u8_set result (bigIntToBytes32 y0) 64 in
  do! result := u8_set result (bigIntToBytes32 y1) 96 in
  Ok result.

(** [decodeG1Point]. *)
Definition decodeG1Point (bytes : list Z) : outcome G1 :=
  do! x := bytes32ToBigInt (slice bytes 0 32) in
  do! y := bytes32ToBigInt (slice bytes 32 64) in
  Ok (BigInt_toString x, BigInt_toString y, "1"%string).

(** [decodeG2Point]. *)
Definition decodeG2Point (bytes : list Z) : outcome G2 :=
  do! x0 := bytes32ToBigInt (slice bytes 0 32) in
  do! x1 := bytes32ToBigInt (slice bytes 32 64) in
  do! y0 := bytes32ToBigInt (slice bytes 64 96) in
  do! y1 := bytes32ToBigInt (slice bytes 96 128) in
  Ok ((BigInt_toString x0, BigInt_toString x1),
      (BigInt_toString y0, BigInt_toString y1),
      ("1"%string, "0"%string)).

(** [hashAddress]: [hash = (hash * 31n + charCode) % 2n ** 254n] per
    character; the characters of an address are ASCII, one code unit each. *)
Fixpoint hashAddress_loop (hash : Z) (address : string) : Z :=
  match address with
  | EmptyString => hash
  | String c rest =>
      hashAddress_loop ((hash * 31 + Z.of_nat (Ascii.nat_of_ascii c)) mod 2 ^ 254) rest
  end.

Definition hashAddress (address : string) : string :=
  BigInt_toString (hashAddress_loop 0 address).

Section WithEnv.
Variable E : Env.

(** [Date.now()]. *)
Definition Date_now_call : M Z := fun w => (Ok (Date_now E w), w).

(** [generatePaymentProof(params)]. *)
Definition generatePaymentProof (params : GenerateProofParams) : M Groth16Proof :=
  let salary := gp_salary params in
  let blindingFactor := gp_blindingFactor params in
  let recipient := gp_recipient params in
  let commitment := gp_commitment params in
  let* now := Date_now_call in
  let* nullifier := generateNullifier E commitment now blindingFactor in
  let* commitmentBytes := lift (defined commitment) in
  let circuitInputs :=
    {| ci_salary := BigInt_toString salary;
       ci_blindingFactor := bytesToFieldElement blindingFactor;
       ci_commitment := bytesToFieldElement commitmentBytes;
       ci_nullifier := bytesToFieldElement nullifier;
       ci_recipientHash := hashAddress recipient |} in
  try_catch
    (let* proof :=
       call_out (fun w => groth16_fullProve E w circuitInputs)
                (FullProve circuitInputs CIRCUIT_WASM_PATH CIRCUIT_ZKEY_PATH) in
     let* a := lift (encodeG1Point (pi_a proof)) in
     let* b := lift (encodeG2Point (pi_b proof)) in
     let* c := lift (encodeG1Point (pi_c proof)) in
     ret {| proof_a := a; proof_b := b; proof_c := c; nullifier := nullifier |})
    (fun error => throw (Error ("Proof generation failed: " +:+ String_of_error error))).

Definition vkeyPath : string := "./circuits/verification_key.json".

(** The [try] block of [verifyProofLocally]. *)
Definition verifyProofLocally_try (proof : Groth16Proof) (publicInputs : PublicInputs)
  : M bool :=
  let* a := lift (decodeG1Point (proof_a proof)) in
  let* b := lift (decodeG2Point (proof_b proof)) in
  let* c := lift (decodeG1Point (proof_c proof)) in
  let snarkProof := {| pi_a := a; pi_b := b; pi_c := c |} in
  let signals :=
    [ bytesToFieldElement (pub_commitment publicInputs);
      bytesToFieldElement (pub_nullifier publicInputs);
      pub_recipientHash publicInputs ] in
  call_out (fun w => groth16_verify E w vkeyPath signals snarkProof)
           (Groth16Verify vkeyPath signals snarkProof).

(** [verifyProofLocally(proof, publicInputs)]: the [try] block, and a [catch]
    that logs and answers [false]. *)
Definition verifyProofLocally (proof : Groth16Proof) (publicInputs : PublicInputs)
  : M bool :=
  try_catch
    (verifyProofLocally_try proof publicInputs)
    (fun error =>
       let* _ := log (ConsoleError ("Verification error: " +:+ String_of_error error)) in
       ret false).

End WithEnv.
End Groth16.

(** ** [src/client.ts]: the [ZKPayroll] client *)

Module Client.
Import Codec Commitment Groth16.

(** The key of the blinding-factor map: [`${companyId}:${employeeAddress}`]. *)
Definition storeKey (companyId employeeAddress : string) : string :=
  companyId +:+ ":" +:+ employeeAddress.

(** [contract.call(method, ...args)] on a contract at [address]. *)
Definition contract_call (address method : string) (args : list ScVal) : Operation :=
  {| op_contract := address; op_method := method; op_args := args |}.

(** The result parsers are placeholders in the source. *)
Definition parseEmployeeResult (result : unit) : Employee :=
  {| emp_address := None; emp_companyId := None; salaryCommitment := None;
     emp_isActive := None; lastPaymentTimestamp := None |}.

Definition emptyViewKey : ViewKey :=
  {| vk_id := None; vk_companyId := None; vk_auditor := None; vk_grantedBy := None;
     vk_createdAt := None; vk_expiresAt := None; vk_scope := None |}.

(** [mapAuditScope(scope, timeRange)]. *)
Definition mapAuditScope (scope : string) (timeRange : option (Z * Z))
  : outcome ScopeValue :=
  if decide (scope = "full"%string) then Ok FullCompany
  else if decide (scope = "aggregate"%string) then Ok AggregateOnly
  else if decide (scope = "timeRange"%string) then
    match timeRange with
    | None => Throw (Error "timeRange required for timeRange scope")
    | Some (start_ms, end_ms) => Ok (TimeRange (start_ms / 1000) (end_ms / 1000))
    end
  else Throw (Error ("Unknown scope: " +:+ scope)).

Section WithClient.
Variable E : Env.
Variable C : Config.

(** [this.blindingFactors.get(key)], [.set(key, v)] and [.delete(key)]. *)
Definition blindingFactors_get (key : string) : M (option (list Z)) :=
  fun w => (Ok (blindingFactors w !! key), w).

Definition blindingFactors_set (key : string) (v : list Z) : M unit :=
  fun w => (Ok tt, set_blindingFactors (<[key := v]> (blindingFactors w)) w).

Definition blindingFactors_delete (key : string) : M unit :=
  fun w => (Ok tt, set_blindingFactors (delete key (blindingFactors w)) w).

(** [new Contract(address)]. *)
Definition new_Contract (address : string) : M string :=
  lift (do! _ := Contract_new E address in Ok address).

(** [buildTransaction(operation)]. *)
Definition buildTransaction (operation : Operation) : M Transaction :=
  let* account :=
    call_out (fun w => server_getAccount E w (publicKey C)) (GetAccount (publicKey C)) in
  ret {| tx_fee := "100"; tx_networkPassphrase := networkPassphrase C;
         tx_operation := operation; tx_timeout := 30; tx_signer := None |}.

(** [submitTransaction(tx)]: sign, then send. *)
Definition submitTransaction (tx : Transaction) : M unit :=
  let signed :=
    {| tx_fee := tx_fee tx; tx_networkPassphrase := tx_networkPassphrase tx;
       tx_operation := tx_operation tx; tx_timeout := tx_timeout tx;
       tx_signer := Some (publicKey C) |} in
  call_out (fun w => server_sendTransaction E w signed) (SendTransaction signed).

(** [getEmployee(address)]. *)
Definition getEmployee (address : string) : M Employee :=
  let* contract := new_Contract (registry C) in
  let* tx := buildTransaction (contract_call contract "get_employee" [VStr address]) in
  let* result :=
    call_out (fun w => server_simulateTransaction E w tx) (SimulateTransaction tx) in
  ret (parseEmployeeResult result).

(** [getActiveEmployees] and [getEmployeeSalary] are stubs in the source. *)
Definition getActiveEmployees (companyId : string) : M (list string) := ret [].

Definition getEmployeeSalary (companyId employee : string) : M Z := ret 0.

(** [addEmployee(params)]. *)
Definition addEmployee (params : AddEmployeeParams) : M Employee :=
  let* blindingFactor := generateBlindingFactor E in
  let* commitment := generateCommitment E (add_salary params) blindingFactor in
  let key := storeKey (add_companyId params) (add_employeeAddress params) in
  let* _ := blindingFactors_set key blindingFactor in
  let* contract := new_Contract (registry C) in
  let* tx :=
    buildTransaction
      (contract_call contract "add_employee"
         [VStr (add_companyId params); VStr (add_employeeAddress params);
          VBytes commitment]) in
  let* _ := submitTransaction tx in
  ret {| emp_address := Some (add_employeeAddress params);
         emp_companyId := Some (add_companyId params);
         salaryCommitment := Some commitment;
         emp_isActive := Some true;
         lastPaymentTimestamp := Some 0 |}.

(** [updateSalary(params)]. *)
Definition updateSalary (params : UpdateSalaryParams) : M unit :=
  let* blindingFactor := generateBlindingFactor E in
  let* commitment := generateCommitment E (upd_newSalary params) blindingFactor in
  let key := storeKey (upd_companyId params) (upd_employeeAddress params) in
  let* _ := blindingFactors_set key blindingFactor in
  let* contract := new_Contract (registry C) in
  let* tx :=
    buildTransaction
      (contract_call contract "update_salary_commitment"
         [VStr (upd_companyId params); VStr (upd_employeeAddress params);
          VBytes commitment]) in
  let* _ := submitTransaction tx in
  ret tt.

(** [deactivateEmployee(params)]. *)
Definition deactivateEmployee (params : DeactivateEmployeeParams) : M unit :=
  let* contract := new_Contract (registry C) in
  let* tx :=
    buildTransaction
      (contract_call contract "deactivate_employee"
         [VStr (deact_companyId params); VStr (deact_employeeAddress params)]) in
  let* _ := submitTransaction tx in
  let key := storeKey (deact_companyId params) (deact_employeeAddress params) in
  blindingFactors_delete key.

(** [processPayment(params)]. *)
Definition processPayment (params : ProcessPaymentParams) : M PaymentResult :=
  let key := storeKey (pay_companyId params) (pay_employeeAddress params) in
  let* stored := blindingFactors_get key in
  match stored with
  | None => throw (Error "Blinding factor not found. Was employee added via this SDK?")
  | Some blindingFactor =>
      let* employee := getEmployee (pay_employeeAddress params) in
      let* proof :=
        generatePaymentProof E
          {| gp_salary := pay_amount params;
             gp_blindingFactor := blindingFactor;
             gp_recipient := pay_employeeAddress params;
             gp_commitment := salaryCommitment employee |} in
      let* contract := new_Contract (executor C) in
      let* tx :=
        buildTransaction
          (contract_call contract "execute_payment"
             [VStr (pay_companyId params); VStr (pay_employeeAddress params);
              VNum (pay_amount params);
              VBytes (proof_a proof); VBytes (proof_b proof); VBytes (proof_c proof);
              VBytes (nullifier proof); VNum (pay_period params)]) in
      let* _ := submitTransaction tx in
      ret {| success := true; transactionHash := Some ""%string; error := None;
             res_period := pay_period params;
             res_employeeAddress := pay_employeeAddress params |}
  end.

(** The body of the [for] loop of [processPayroll], for one employee: the
    results so far in, the results after this employee out.  [continue] leaves
    the results as they are. *)
Definition processPayroll_body (params : ProcessPayrollParams)
    (employeeAddress : string) (results : list PaymentResult)
  : M (list PaymentResult) :=
  try_catch
    (let key := storeKey (roll_companyId params) employeeAddress in
     let* stored := blindingFactors_get key in
     match stored with
     | None =>
         let* _ := log (ConsoleWarn ("Skipping " +:+ employeeAddress
                                       +:+ ": no blinding factor")) in
         ret results
     | Some _ =>
         let* salary := getEmployeeSalary (roll_companyId params) employeeAddress in
         let* result :=
           processPayment
             {| pay_companyId := roll_companyId params;
                pay_employeeAddress := employeeAddress;
                pay_amount := salary;
                pay_period := roll_period params |} in
         ret (results ++ [result])
     end)
    (fun err =>
       ret (results ++ [ {| success := false; transactionHash := None;
                            error := Some (String_of_error err);
                            res_period := roll_period params;
                            res_employeeAddress := employeeAddress |} ])).

Fixpoint processPayroll_loop (params : ProcessPayrollParams)
    (employees : list string) (results : list PaymentResult)
  : M (list PaymentResult) :=
  match employees with
  | [] => ret results
  | employeeAddress :: rest =>
      let* results' := processPayroll_body params employeeAddress results in
      processPayroll_loop params rest results'
  end.

(** [processPayroll(params)]. *)
Definition processPayroll (params : ProcessPayrollParams) : M (list PaymentResult) :=
  let* employees :=
    match roll_employees params with
    | Some l => ret l
    | None => getActiveEmployees (roll_companyId params)
    end in
  processPayroll_loop params employees [].

(** [generateViewKey(params)]. *)
Definition generateViewKey (params : GenerateViewKeyParams) : M ViewKey :=
  let* contract := new_Contract (executor C) in
  let* scopeValue := lift (mapAuditScope (gvk_scope params) (gvk_timeRange params)) in
  let* tx :=
    buildTransaction
      (contract_call contract "generate_view_key"
         [VStr (gvk_companyId params); VStr (publicKey C);
          VStr (gvk_auditorAddress params); VScope scopeValue;
          VNum (gvk_durationDays params)]) in
  let* _ := submitTransaction tx in
  ret emptyViewKey.

End WithClient.
End Client.

(** ** Vocabulary of the properties *)

Module Properties.
Import Codec Commitment Groth16 Client.

Definition is_byte (b : Z) : Prop := 0 <= b < 256.

(** The bytes the encoding loop writes, most significant first. *)
Fixpoint be_bytes (n : nat) (v : Z) : list Z :=
  match n with
  | O => []
  | S i => be_bytes i (Z.shiftr v 8) ++ [Z.land v 255]
  end.

(** The big-endian value of a byte string. *)
Definition be_value (bytes : list Z) : Z :=
  fold_left (fun acc b => acc * 256 + b) bytes 0.

(** A coordinate a 32-byte scalar can hold. *)
Definition coordinate (x : Z) : Prop := 0 <= x < 2 ^ 256.

(** Affine points in the form snarkjs produces and consumes: coordinates as
    canonical decimal strings, then the projective unit. *)
Definition G1_point (x y : Z) : G1 :=
  (BigInt_toString x, BigInt_toString y, "1"%string).

Definition G2_point (x0 x1 y0 y1 : Z) : G2 :=
  ((BigInt_toString x0, BigInt_toString x1),
   (BigInt_toString y0, BigInt_toString y1),
   ("1"%string, "0"%string)).

(** [AuditScope] of [types/index.ts] and the string each variant is. *)
Inductive AuditScope : Type := full | aggregate | timeRange | employeeList.

Definition AuditScope_string (s : AuditScope) : string :=
  match s with
  | full => "full"
  | aggregate => "aggregate"
  | timeRange => "timeRange"
  | employeeList => "employeeList"
  end.

(** The hash [getPoseidon] hands out in world [w]: the cached instance, or
    the one it builds. *)
Definition poseidon_at (E : Env) (w : World) : list Z -> Z :=
  match poseidonInstance w with
  | Some p => p
  | None => buildPoseidon E
  end.

(** The parts of the world other than the cached Poseidon instance. *)
Definition same_but_cache (w w' : World) : Prop :=
  blindingFactors w' = blindingFactors w /\
  randomDraws w' = randomDraws w /\
  trace w' = trace w.

(** A computation that never writes the blinding-factor store. *)
Definition keeps_store {A} (m : M A) : Prop :=
  forall w r w', m w = (r, w') -> blindingFactors w' = blindingFactors w.

(** A computation that throws only errors satisfying [P]. *)
Definition throws_only {A} (P : js_error -> Prop) (m : M A) : Prop :=
  forall w e w', m w = (Throw e, w') -> P e.

(** The error [processPayment] throws for a missing blinding factor. *)
Definition blindingFactorNotFound : js_error :=
  Error "Blinding factor not found. Was employee added via this SDK?".

(** No collaborator that [processPayment] calls directly rejects with [err]
    (the prover's rejections are wrapped by [generatePaymentProof]). *)
Definition never_rejects_with (E : Env) (err : js_error) : Prop :=
  (forall address, Contract_new E address <> Throw err) /\
  (forall w pk, server_getAccount E w pk <> Throw err) /\
  (forall w tx, server_simulateTransaction E w tx <> Throw err) /\
  (forall w tx, server_sendTransaction E w tx <> Throw err).

(** The transaction [submitTransaction] sends for an operation. *)
Definition signedTx (C : Config) (operation : Operation) : Transaction :=
  {| tx_fee := "100"; tx_networkPassphrase := networkPassphrase C;
     tx_operation := operation; tx_timeout := 30;
     tx_signer := Some (publicKey C) |}.

(** The contract address of [operation] is accepted by the constructor, and
    the ledger accepts building and submitting [operation] from world [w]. *)
Definition ledger_accepts (E : Env) (C : Config) (operation : Operation) (w : World)
  : Prop :=
  Contract_new E (op_contract operation) = Ok tt /\
  server_getAccount E w (publicKey C) = Ok tt /\
  server_sendTransaction E (emit (GetAccount (publicKey C)) w) (signedTx C operation)
    = Ok tt.

(** The world after the ledger accepted [operation]. *)
Definition after_submit (C : Config) (operation : Operation) (w : World) : World :=
  emit (SendTransaction (signedTx C operation)) (emit (GetAccount (publicKey C)) w).

(** The payment [processPayroll] requests for one employee. *)
Definition payrollPayment (params : ProcessPayrollParams) (employeeAddress : string)
  : ProcessPaymentParams :=
  {| pay_companyId := roll_companyId params;
     pay_employeeAddress := employeeAddress;
     pay_amount := 0;
     pay_period := roll_period params |}.

(** The result [processPayroll] records for an employee whose payment threw
    [err]. *)
Definition failedPayment (params : ProcessPayrollParams) (employeeAddress : string)
    (err : js_error) : PaymentResult :=
  {| success := false; transactionHash := None;
     error := Some (String_of_error err);
     res_period := roll_period params;
     res_employeeAddress := employeeAddress |}.

(** One batch, employee by employee: who is skipped, who is paid, who fails,
    and the world each payment starts from. *)
Inductive payroll_run (E : Env) (C : Config) (params : ProcessPayrollParams)
  : list string -> World -> list PaymentResult -> World -> Prop :=
| run_done w :
    payroll_run E C params [] w [] w
| run_skip a rest w rs w' :
    blindingFactors w !! storeKey (roll_companyId params) a = None ->
    payroll_run E C params rest
      (emit (ConsoleWarn ("Skipping " +:+ a +:+ ": no blinding factor")) w) rs w' ->
    payroll_run E C params (a :: rest) w rs w'
| run_paid a rest w r w1 rs w' :
    is_Some (blindingFactors w !! storeKey (roll_companyId params) a) ->
    processPayment E C (payrollPayment params a) w = (Ok r, w1) ->
    payroll_run E C params rest w1 rs w' ->
    payroll_run E C params (a :: rest) w (r :: rs) w'
| run_failed a rest w err w1 rs w' :
    is_Some (blindingFactors w !! storeKey (roll_companyId params) a) ->
    processPayment E C (payrollPayment params a) w = (Throw err, w1) ->
    payroll_run E C params rest w1 rs w' ->
    payroll_run E C params (a :: rest) w (failedPayment params a err :: rs) w'.

(** Whether a company identifier contains the separator of the store key. *)
Fixpoint has_colon (s : string) : bool :=
  match s with
  | EmptyString => false
  | String c rest => if Ascii.eqb c ":"%char then true else has_colon rest
  end.

(** The employees [processPayroll] iterates over. *)
Definition payrollEmployees (params : ProcessPayrollParams) : list string :=
  match roll_employees params with
  | Some l => l
  | None => []
  end.

End Properties.

(** ** Concrete collaborators for closed examples *)

Module Fixtures.

(** A stand-in hash: any function of the inputs serves the examples. *)
Definition toyPoseidon (inputs : list Z) : Z :=
  fold_left (fun acc x => (acc * 1000003 + x + 1) mod 2 ^ 254) inputs 0.

Definition stubProof : SnarkProof :=
  {| pi_a := ("1", "2", "1")%string;
     pi_b := (("3", "4"), ("5", "6"), ("1", "0"))%string;
     pi_c := ("7", "8", "1")%string |}.

(** A ledger and a prover that accept every call; the clock advances with
    the trace. *)
Definition stubEnv : Env :=
  {| buildPoseidon := toyPoseidon;
     getRandomValues := fun d i => Z.of_nat (17 * d + i);
     Date_now := fun w => 1700000000000 + Z.of_nat (length (trace w));
     Contract_new := fun _ => Ok tt;
     server_getAccount := fun _ _ => Ok tt;
     server_sendTransaction := fun _ _ => Ok tt;
     server_simulateTransaction := fun _ _ => Ok tt;
     groth16_fullProve := fun _ _ => Ok stubProof;
     groth16_verify := fun _ _ _ _ => Ok true |}.

Definition stubConfig : Config :=
  {| publicKey := "GADMIN";
     networkPassphrase := "Test SDF Network ; September 2015";
     registry := "CREGISTRY";
     executor := "CEXECUTOR" |}.

Definition emptyWorld : World :=
  {| poseidonInstance := None; blindingFactors := ∅; randomDraws := 0; trace := [] |}.

(** A proof request, and a world one event (hence one clock tick) later. *)
Definition sampleProofParams : GenerateProofParams :=
  {| gp_salary := 500000;
     gp_blindingFactor := replicate 32 7;
     gp_recipient := "GEMPLOYEE";
     gp_commitment := Some (replicate 32 9) |}.

Definition laterWorld : World := emit (ConsoleWarn "tick") emptyWorld.

(** The world a first proof generation leaves behind. *)
Definition afterFirstProof : World :=
  snd (Groth16.generatePaymentProof stubEnv sampleProofParams emptyWorld).

(** A store with two employees of one company. *)
Definition twoEmployees : World :=
  set_blindingFactors
    (<["ACME:GALICE"%string := replicate 32 1]>
       (<["ACME:GBOB"%string := replicate 32 2]> ∅))
    emptyWorld.

End Fixtures.

(** ** More of [groth16.ts]: the verification key export *)

Module VerificationKey.
Import Codec Groth16.

(** The snarkjs verification key, as [verification_key.json] holds it. *)
Record VerificationKeyJson : Type := {
  vk_alpha_1 : G1;
  vk_beta_2 : G2;
  vk_gamma_2 : G2;
  vk_delta_2 : G2;
  IC : list G1;
}.

(** What [exportVerificationKey] returns. *)
Record VerificationKeyMaterial : Type := {
  alpha : list Z;
  beta : list Z;
  gamma : list Z;
  delta : list Z;
  ic : list (list Z);
}.

(** [points.map(f)] for an [f] that may throw: the first failure ends it. *)
Fixpoint map_outcome {A B} (f : A -> outcome B) (l : list A) : outcome (list B) :=
  match l with
  | [] => Ok []
  | x :: rest =>
      do! y := f x in
      do! ys := map_outcome f rest in
      Ok (y :: ys)
  end.

(** [exportVerificationKey()].  [import_vkey] is the dynamic import of
    [./circuits/verification_key.json], which may be rejected. *)
Definition exportVerificationKey (import_vkey : World -> outcome VerificationKeyJson)
  : M VerificationKeyMaterial :=
  let* vkey := (fun w => (import_vkey w, w)) in
  let* a := lift (encodeG1Point (vk_alpha_1 vkey)) in
  let* b := lift (encodeG2Point (vk_beta_2 vkey)) in
  let* g := lift (encodeG2Point (vk_gamma_2 vkey)) in
  let* d := lift (encodeG2Point (vk_delta_2 vkey)) in
  let* points := lift (map_outcome encodeG1Point (IC vkey)) in
  ret {| alpha := a; beta := b; gamma := g; delta := d; ic := points |}.

End VerificationKey.

(** ** More of [client.ts]: companies, queries and revocation *)

Module ClientQueries.
Import Codec Commitment Groth16 Client.

(** [Company]; [parseCompanyResult] returns [{} as Company]. *)
Record Company : Type := {
  co_id : option string;
  co_admin : option string;
  co_treasury : option string;
  employeeCount : option Z;
  co_isActive : option bool;
}.

(** The result parsers are placeholders in the source. *)
Definition parseCompanyResult (result : unit) : Company :=
  {| co_id := None; co_admin := None; co_treasury := None;
     employeeCount := None; co_isActive := None |}.

Definition parseBoolResult (result : unit) : bool := false.

Section WithClient.
Variable E : Env.
Variable C : Config.

(** [registerCompany({companyId, treasuryAddress})]. *)
Definition registerCompany (companyId treasuryAddress : string) : M Company :=
  let* contract := new_Contract E (registry C) in
  let* tx :=
    buildTransaction E C
      (contract_call contract "register_company"
         [VStr companyId; VStr (publicKey C); VStr treasuryAddress]) in
  let* _ := submitTransaction E C tx in
  ret {| co_id := Some companyId; co_admin := Some (publicKey C);
         co_treasury := Some treasuryAddress;
         employeeCount := Some 0; co_isActive := Some true |}.

(** [getCompany(companyId)]. *)
Definition getCompany (companyId : string) : M Company :=
  let* contract := new_Contract E (registry C) in
  let* tx := buildTransaction E C (contract_call contract "get_company" [VStr companyId]) in
  let* result :=
    call_out (fun w => server_simulateTransaction E w tx) (SimulateTransaction tx) in
  ret (parseCompanyResult result).

(** [isPaymentComplete({employeeAddress, period})]. *)
Definition isPaymentComplete (employeeAddress : string) (period : Z) : M bool :=
  let* contract := new_Contract E (executor C) in
  let* tx :=
    buildTransaction E C
      (contract_call contract "is_paid" [VStr employeeAddress; VNum period]) in
  let* result :=
    call_out (fun w => server_simulateTransaction E w tx) (SimulateTransaction tx) in
  ret (parseBoolResult result).

(** [revokeViewKey(keyId)]. *)
Definition revokeViewKey (keyId : string) : M unit :=
  let* contract := new_Contract E (executor C) in
  let* tx :=
    buildTransaction E C
      (contract_call contract "revoke_view_key" [VStr (publicKey C); VStr keyId]) in
  let* _ := submitTransaction E C tx in
  ret tt.

End WithClient.
End ClientQueries.

(** ** [PayrollService.filterTransactions] *)

Module Service.

(** A transaction of the service: its [amount] and whatever else it carries. *)
Record Transaction (X : Type) : Type := {
  amount : Z;
  others : X;
}.
Arguments amount {X} t.
Arguments others {X} t.

Record FilterCriteria : Type := {
  minAmount : Z;
}.

(** [transactions.filter((t) => t.amount > criteria.minAmount)]. *)
Definition filterTransactions {X} (transactions : list (Transaction X))
    (criteria : FilterCriteria) : list (Transaction X) :=
  List.filter (fun t => minAmount criteria <? amount t) transactions.

End Service.

(** ** Vocabulary of the further properties *)

Module MoreProperties.
Import Codec Commitment Groth16 Client Properties.

(** A computation whose outside calls and console output all satisfy [P]. *)
Definition emits_only {A} (P : Event -> Prop) (m : M A) : Prop :=
  forall w r w', m w = (r, w') ->
    exists events, trace w' = trace w ++ events /\ Forall P events.

(** Reads of the ledger: fetching the account and simulating. *)
Definition is_read (e : Event) : Prop :=
  match e with
  | GetAccount _ | SimulateTransaction _ => True
  | _ => False
  end.

(** Reads of the ledger and console warnings. *)
Definition is_read_or_warning (e : Event) : Prop :=
  match e with
  | GetAccount _ | SimulateTransaction _ | ConsoleWarn _ => True
  | _ => False
  end.

(** Points in the form snarkjs produces, with coordinates a scalar holds. *)
Definition canonical_G1 (p : G1) : Prop :=
  exists x y, coordinate x /\ coordinate y /\ p = G1_point x y.

Definition canonical_G2 (p : G2) : Prop :=
  exists x0 x1 y0 y1,
    coordinate x0 /\ coordinate x1 /\ coordinate y0 /\ coordinate y1 /\
    p = G2_point x0 x1 y0 y1.

Definition canonical_proof (sp : SnarkProof) : Prop :=
  canonical_G1 (pi_a sp) /\ canonical_G2 (pi_b sp) /\ canonical_G1 (pi_c sp).

(** The signals [verifyProofLocally] hands to the verifier. *)
Definition publicSignals (publicInputs : PublicInputs) : list string :=
  [ bytesToFieldElement (pub_commitment publicInputs);
    bytesToFieldElement (pub_nullifier publicInputs);
    pub_recipientHash publicInputs ].

(** The circuit inputs [generatePaymentProof] builds for a defined
    commitment and a derived nullifier. *)
Definition circuitInputsOf (params : GenerateProofParams) (commitment nullifier : list Z)
  : CircuitInputs :=
  {| ci_salary := BigInt_toString (gp_salary params);
     ci_blindingFactor := bytesToFieldElement (gp_blindingFactor params);
     ci_commitment := bytesToFieldElement commitment;
     ci_nullifier := bytesToFieldElement nullifier;
     ci_recipientHash := hashAddress (gp_recipient params) |}.

End MoreProperties.

(** ** More concrete inputs for closed examples *)

Module MoreFixtures.
Import VerificationKey.

Definition sampleVkey : VerificationKeyJson :=
  {| vk_alpha_1 := ("1", "2", "1")%string;
     vk_beta_2 := (("3", "4"), ("5", "6"), ("1", "0"))%string;
     vk_gamma_2 := (("7", "8"), ("9", "10"), ("1", "0"))%string;
     vk_delta_2 := (("11", "12"), ("13", "14"), ("1", "0"))%string;
     IC := [("15", "16", "1"); ("17", "18", "1"); ("19", "20", "1")]%string |}.

Definition sampleEmployee : AddEmployeeParams :=
  {| add_companyId := "ACME"; add_employeeAddress := "GCAROL"; add_salary := 500000 |}.

End MoreFixtures.

(** ** Facts about the scalar codec *)

Module CodecFacts.
Import Codec Properties.

Lemma land_255 v : Z.land v 255 = v mod 256.
Proof. change 255 with (Z.ones 8). rewrite Z.land_ones by lia. reflexivity. Qed.

Lemma shiftr_8 v : Z.shiftr v 8 = v / 256.
Proof. rewrite Z.shiftr_div_pow2 by lia. reflexivity. Qed.

Lemma lor_shiftl_byte r b : is_byte b -> Z.lor (Z.shiftl r 8) b = r * 256 + b.
Proof.
  intros Hb.
  assert (Hland : Z.land (Z.shiftl r 8) b = 0).
  { apply Z.bits_inj'. intros n Hn. rewrite Z.land_spec, Z.bits_0.
    destruct (Z.ltb_spec n 8).
    - rewrite Z.shiftl_spec_low by lia. reflexivity.
    - replace (Z.testbit b n) with false; [apply andb_false_r|].
      symmetry. destruct (Z.eq_dec b 0) as [->|]; [apply Z.bits_0|].
      apply Z.bits_above_log2; [unfold is_byte in Hb; lia|].
      apply Z.log2_lt_pow2; unfold is_byte in Hb; [lia|].
      apply Z.lt_le_trans with (2 ^ 8); [simpl; lia|].
      apply Z.pow_le_mono_r; lia. }
  rewrite <- Z.lxor_lor by exact Hland.
  rewrite <- Z.add_nocarry_lxor by exact Hland.
  rewrite Z.shiftl_mul_pow2 by lia. reflexivity.
Qed.

Lemma is_byte_land v : is_byte (Z.land v 255).
Proof. rewrite land_255. unfold is_byte. apply Z.mod_pos_bound. lia. Qed.

Lemma be_bytes_length n v : length (be_bytes n v) = n.
Proof.
  revert v. induction n as [|i IH]; intros v; simpl; [reflexivity|].
  rewrite length_app, IH. simpl. lia.
Qed.

Lemma be_bytes_Forall n v : Forall is_byte (be_bytes n v).
Proof.
  revert v. induction n as [|i IH]; intros v; simpl; [constructor|].
  apply Forall_app. split; [apply IH|].
  constructor; [apply is_byte_land | constructor].
Qed.

(** What the encoding loop leaves in the buffer. *)
Lemma bigIntToBytes_loop_spec n v bytes :
  (n <= length bytes)%nat ->
  bigIntToBytes_loop n v bytes = be_bytes n v ++ drop n bytes.
Proof.
  revert v bytes. induction n as [|i IH]; intros v bytes Hlen; simpl.
  - rewrite drop_0. reflexivity.
  - rewrite IH by (unfold u8_store; rewrite length_insert; lia).
    rewrite <- app_assoc. f_equal. unfold u8_store.
    rewrite (Z.mod_small (Z.land v 255)) by apply is_byte_land.
    destruct (lookup_lt_is_Some_2 bytes i ltac:(lia)) as [old Hold].
    rewrite <- (take_drop_middle bytes i old Hold) at 1.
    rewrite insert_app_r_alt by (rewrite length_take; lia).
    rewrite length_take, Nat.min_l by lia.
    replace (i - i)%nat with 0%nat by lia. simpl.
    rewrite drop_app_length' by (rewrite length_take; lia).
    reflexivity.
Qed.

Lemma bigIntToBytes_be v : bigIntToBytes v = be_bytes 32 v.
Proof.
  unfold bigIntToBytes. rewrite bigIntToBytes_loop_spec.
  - unfold Uint8Array_new. rewrite drop_ge by (rewrite length_replicate; lia).
    apply app_nil_r.
  - unfold Uint8Array_new. rewrite length_replicate. lia.
Qed.

Lemma bigIntToBytes32_eq v : bigIntToBytes32 v = bigIntToBytes v.
Proof. reflexivity. Qed.

Lemma bigIntToBytes_length v : length (bigIntToBytes v) = 32%nat.
Proof. rewrite bigIntToBytes_be. apply be_bytes_length. Qed.

Lemma bytesToBigInt_loop_app r l1 l2 :
  bytesToBigInt_loop r (l1 ++ l2) = bytesToBigInt_loop (bytesToBigInt_loop r l1) l2.
Proof. revert r. induction l1 as [|b l1 IH]; intros r; simpl; [reflexivity|apply IH]. Qed.

Lemma bytesToBigInt_loop_be n r v :
  bytesToBigInt_loop r (be_bytes n v) = r * 256 ^ Z.of_nat n + v mod 256 ^ Z.of_nat n.
Proof.
  revert r v. induction n as [|i IH]; intros r v.
  - simpl. rewrite Z.mod_1_r. lia.
  - cbn [be_bytes]. rewrite bytesToBigInt_loop_app, IH. cbn [bytesToBigInt_loop].
    rewrite lor_shiftl_byte by apply is_byte_land.
    rewrite land_255, shiftr_8.
    replace (Z.of_nat (S i)) with (1 + Z.of_nat i) by lia.
    rewrite Z.pow_add_r by lia. change (256 ^ 1) with 256.
    rewrite (Z.rem_mul_r v 256 (256 ^ Z.of_nat i)) by (try apply Z.pow_pos_nonneg; lia).
    ring.
Qed.

(** Decoding an encoding gives the value modulo [2^256]. *)
Lemma bytesToBigInt_bigIntToBytes v :
  bytesToBigInt (bigIntToBytes v) = v mod 2 ^ 256.
Proof.
  unfold bytesToBigInt. rewrite bigIntToBytes_be, bytesToBigInt_loop_be.
  change (256 ^ Z.of_nat 32) with (2 ^ 256). lia.
Qed.

Lemma be_bytes_mod n k v :
  (n <= k)%nat -> be_bytes n (v mod 256 ^ Z.of_nat k) = be_bytes n v.
Proof.
  revert k v. induction n as [|i IH]; intros k w Hk; [reflexivity|].
  cbn [be_bytes]. destruct k as [|k]; [lia|].
  rewrite !land_255, !shiftr_8.
  replace (Z.of_nat (S k)) with (1 + Z.of_nat k) by lia.
  rewrite Z.pow_add_r by lia. change (256 ^ 1) with 256.
  assert (Hp : 0 < 256 ^ Z.of_nat k) by (apply Z.pow_pos_nonneg; lia).
  rewrite (Z.rem_mul_r w 256 (256 ^ Z.of_nat k)) by lia.
  set (q := (w / 256) mod 256 ^ Z.of_nat k).
  replace (w mod 256 + 256 * q) with (w mod 256 + q * 256) by ring.
  rewrite Z.div_add, Z.mod_add by lia.
  rewrite (Z.div_small (w mod 256)) by (apply Z.mod_pos_bound; lia).
  rewrite Z.mod_mod by lia. rewrite Z.add_0_l. subst q.
  rewrite IH by lia. reflexivity.
Qed.

(** The encoding only sees the value modulo [2^256]. *)
Lemma bigIntToBytes_mod v : bigIntToBytes (v mod 2 ^ 256) = bigIntToBytes v.
Proof.
  rewrite !bigIntToBytes_be. change (2 ^ 256) with (256 ^ Z.of_nat 32).
  apply be_bytes_mod. lia.
Qed.

(** The loop writes the base-256 digits, most significant first. *)
Lemma be_bytes_digits n v :
  be_bytes n v =
  map (fun k : nat => (v / 256 ^ (Z.of_nat n - 1 - Z.of_nat k)) mod 256) (seq 0 n).
Proof.
  revert v. induction n as [|i IH]; intros v; [reflexivity|].
  cbn [be_bytes]. rewrite seq_S, map_app, IH, land_255, shiftr_8.
  cbn [map Nat.add]. f_equal.
  - apply map_ext_in. intros k Hk. apply in_seq in Hk.
    rewrite Z.div_div by (try apply Z.pow_pos_nonneg; lia).
    do 2 f_equal.
    replace (Z.of_nat (S i) - 1 - Z.of_nat k)
      with (1 + (Z.of_nat i - 1 - Z.of_nat k)) by lia.
    rewrite Z.pow_add_r by lia. reflexivity.
  - replace (Z.of_nat (S i) - 1 - Z.of_nat i) with 0 by lia.
    rewrite Z.pow_0_r, Z.div_1_r. reflexivity.
Qed.

Lemma bigIntToBytes_scalar_be32 v : bigIntToBytes v = scalar_be32 v.
Proof. rewrite bigIntToBytes_be, be_bytes_digits. reflexivity. Qed.

(** [bytes32ToBigInt] reads exactly the first 32 bytes. *)
Lemma bytes32ToBigInt_loop_spec n i r bytes :
  (i + n <= length bytes)%nat ->
  bytes32ToBigInt_loop n i r bytes = Ok (bytesToBigInt_loop r (take n (drop i bytes))).
Proof.
  revert i r. induction n as [|n IH]; intros i r Hlen; [reflexivity|].
  cbn [bytes32ToBigInt_loop].
  destruct (lookup_lt_is_Some_2 bytes i ltac:(lia)) as [b Hb].
  rewrite Hb, IH by lia.
  rewrite (drop_S bytes b i Hb). reflexivity.
Qed.

Lemma bytes32ToBigInt_ok bytes :
  (32 <= length bytes)%nat ->
  bytes32ToBigInt bytes = Ok (bytesToBigInt (take 32 bytes)).
Proof.
  intros H. unfold bytes32ToBigInt. rewrite bytes32ToBigInt_loop_spec by lia.
  rewrite drop_0. reflexivity.
Qed.

Lemma bytes32ToBigInt_loop_short n i r bytes :
  (length bytes < i + n)%nat -> (0 < n)%nat ->
  exists e, bytes32ToBigInt_loop n i r bytes = Throw e.
Proof.
  revert i r. induction n as [|n IH]; intros i r Hlen Hn; [lia|].
  cbn [bytes32ToBigInt_loop]. destruct (bytes !! i) as [b|] eqn:Hb.
  - apply IH; [lia|]. apply lookup_lt_Some in Hb. lia.
  - eauto.
Qed.

Lemma bytes32ToBigInt_bigIntToBytes32 v :
  bytes32ToBigInt (bigIntToBytes32 v) = Ok (v mod 2 ^ 256).
Proof.
  rewrite bigIntToBytes32_eq, bytes32ToBigInt_ok by (rewrite bigIntToBytes_length; lia).
  rewrite take_ge by (rewrite bigIntToBytes_length; lia).
  rewrite bytesToBigInt_bigIntToBytes. reflexivity.
Qed.

(** [areEqual] decides equality of the two arrays. *)
Lemma areEqual_loop_true a b :
  length a = length b -> areEqual_loop a b = true -> a = b.
Proof.
  revert b. induction a as [|x a IH]; intros [|y b] Hlen H; simpl in *;
    try discriminate; [reflexivity|].
  destruct (decide (x = y)) as [->|]; [|discriminate].
  f_equal. apply IH; [lia | exact H].
Qed.

Lemma areEqual_loop_refl a : areEqual_loop a a = true.
Proof.
  induction a as [|x a IH]; simpl; [reflexivity|].
  destruct (decide (x = x)); [exact IH | contradiction].
Qed.

Lemma areEqual_true_iff a b : areEqual a b = true <-> a = b.
Proof.
  unfold areEqual. split.
  - destruct (decide (length a = length b)) as [Hlen|]; [|discriminate].
    apply areEqual_loop_true, Hlen.
  - intros ->. destruct (decide (length b = length b)); [|contradiction].
    apply areEqual_loop_refl.
Qed.

(** Printing then parsing a [bigint] is the identity. *)
Lemma BigInt_of_string_toString v : BigInt_of_string (BigInt_toString v) = Ok v.
Proof.
  unfold BigInt_of_string, BigInt_toString.
  assert (Hp : forall p, Pos.to_uint p <> Decimal.Nil).
  { intros p Hnil. pose proof (DecimalPos.Unsigned.of_to p) as H.
    rewrite Hnil in H. discriminate H. }
  assert (Hisi : NilZero.int_of_string (NilZero.string_of_int (Z.to_int v))
                 = Some (Z.to_int v)).
  { apply NilZero.isi; destruct v; simpl; try discriminate;
      intros [= H]; exact (Hp _ H). }
  rewrite Hisi, DecimalZ.of_to.
  destruct (NilZero.string_of_int (Z.to_int v)) eqn:Hs; [|reflexivity].
  discriminate Hisi.
Qed.

End CodecFacts.

(** ** The point codec and the scalar codec *)

Module CodecProperties.
Import Codec Groth16 Properties CodecFacts.

Lemma u8_set_middle pre old post source :
  length old = length source ->
  u8_set (pre ++ old ++ post) source (length pre) = Ok (pre ++ source ++ post).
Proof.
  intros Hlen. unfold u8_set.
  destruct (decide (length pre + length source <= length (pre ++ old ++ post))%nat)
    as [_|Hbad].
  - rewrite take_app_length. rewrite <- Hlen.
    rewrite drop_app_add', drop_app_length by reflexivity. reflexivity.
  - exfalso. apply Hbad. rewrite !length_app. lia.
Qed.

Lemma u8_set_at pre old post source offset :
  offset = length pre -> length old = length source ->
  u8_set (pre ++ old ++ post) source offset = Ok (pre ++ source ++ post).
Proof. intros ->. apply u8_set_middle. Qed.

Lemma slice_middle pre mid post from to :
  length pre = from -> length mid = (to - from)%nat ->
  slice (pre ++ mid ++ post) from to = mid.
Proof.
  intros Hpre Hmid. unfold slice. subst from.
  rewrite drop_app_length, <- Hmid, take_app_length. reflexivity.
Qed.

Lemma slice_head mid post to :
  length mid = to -> slice (mid ++ post) 0 to = mid.
Proof. intros H. apply (slice_middle [] mid post 0 to); [reflexivity | lia]. Qed.

Lemma scalar_be32_length x : length (scalar_be32 x) = 32%nat.
Proof. rewrite <- bigIntToBytes_scalar_be32. apply bigIntToBytes_length. Qed.

Lemma bytes32ToBigInt_scalar_be32 x :
  coordinate x -> bytes32ToBigInt (scalar_be32 x) = Ok x.
Proof.
  intros Hx. rewrite <- bigIntToBytes_scalar_be32, <- bigIntToBytes32_eq.
  rewrite bytes32ToBigInt_bigIntToBytes32, Z.mod_small by exact Hx. reflexivity.
Qed.

Lemma encodeG1Point_G1_point x y :
  encodeG1Point (G1_point x y) = Ok (scalar_be32 x ++ scalar_be32 y).
Proof.
  unfold encodeG1Point, G1_point.
  rewrite !BigInt_of_string_toString. cbn [obind].
  rewrite !bigIntToBytes32_eq, !bigIntToBytes_scalar_be32.
  change (Uint8Array_new 64) with ([] ++ replicate 32 0 ++ replicate 32 0).
  change 0%nat with (length (@nil Z)) at 1.
  rewrite u8_set_middle by (rewrite scalar_be32_length; reflexivity).
  cbn [obind app].
  rewrite <- (app_nil_r (replicate 32 0)).
  rewrite <- (scalar_be32_length x) at 2.
  rewrite u8_set_middle by (rewrite scalar_be32_length; reflexivity).
  cbn [obind]. rewrite app_nil_r. reflexivity.
Qed.

Lemma decodeG1Point_be32 x y :
  coordinate x -> coordinate y ->
  decodeG1Point (scalar_be32 x ++ scalar_be32 y) = Ok (G1_point x y).
Proof.
  intros Hx Hy. unfold decodeG1Point.
  rewrite slice_head by apply scalar_be32_length.
  replace (scalar_be32 x ++ scalar_be32 y)
    with (scalar_be32 x ++ scalar_be32 y ++ []) by (rewrite app_nil_r; reflexivity).
  rewrite (slice_middle (scalar_be32 x) (scalar_be32 y) [] 32 64)
    by (rewrite scalar_be32_length; reflexivity).
  rewrite !bytes32ToBigInt_scalar_be32 by assumption. reflexivity.
Qed.

Lemma encodeG2Point_G2_point x0 x1 y0 y1 :
  encodeG2Point (G2_point x0 x1 y0 y1)
  = Ok (scalar_be32 x0 ++ scalar_be32 x1 ++ scalar_be32 y0 ++ scalar_be32 y1).
Proof.
  unfold encodeG2Point, G2_point.
  rewrite !BigInt_of_string_toString. cbn [obind].
  rewrite !bigIntToBytes32_eq, !bigIntToBytes_scalar_be32.
  pose proof (scalar_be32_length x0) as L0. pose proof (scalar_be32_length x1) as L1.
  pose proof (scalar_be32_length y0) as L2. pose proof (scalar_be32_length y1) as L3.
  set (a := scalar_be32 x0) in *. set (b := scalar_be32 x1) in *.
  set (c := scalar_be32 y0) in *. set (d := scalar_be32 y1) in *.
  set (z := replicate 32 0).
  assert (Lz : length z = 32%nat) by reflexivity.
  change (Uint8Array_new 128) with ([] ++ z ++ (z ++ z ++ z)).
  rewrite (u8_set_at [] z (z ++ z ++ z) a 0) by (reflexivity || congruence).
  cbn [obind app].
  rewrite (u8_set_at a z (z ++ z) b 32) by congruence. cbn [obind].
  rewrite (app_assoc a b).
  rewrite (u8_set_at (a ++ b) z z c 64) by (rewrite ?length_app; lia). cbn [obind].
  rewrite (app_assoc (a ++ b) c).
  replace (((a ++ b) ++ c) ++ z) with (((a ++ b) ++ c) ++ z ++ [])
    by (rewrite app_nil_r; reflexivity).
  rewrite (u8_set_at ((a ++ b) ++ c) z [] d 96) by (rewrite ?length_app; lia).
  cbn [obind]. rewrite app_nil_r, <- !app_assoc. reflexivity.
Qed.

Lemma decodeG2Point_be32 x0 x1 y0 y1 :
  coordinate x0 -> coordinate x1 -> coordinate y0 -> coordinate y1 ->
  decodeG2Point (scalar_be32 x0 ++ scalar_be32 x1 ++ scalar_be32 y0 ++ scalar_be32 y1)
  = Ok (G2_point x0 x1 y0 y1).
Proof.
  intros H0 H1 H2 H3. unfold decodeG2Point.
  pose proof (scalar_be32_length x0) as L0. pose proof (scalar_be32_length x1) as L1.
  pose proof (scalar_be32_length y0) as L2. pose proof (scalar_be32_length y1) as L3.
  set (a := scalar_be32 x0) in *. set (b := scalar_be32 x1) in *.
  set (c := scalar_be32 y0) in *. set (d := scalar_be32 y1) in *.
  rewrite (slice_head a (b ++ c ++ d) 32) by assumption.
  rewrite (slice_middle a b (c ++ d) 32 64) by (try rewrite L1; assumption).
  replace (a ++ b ++ c ++ d) with ((a ++ b) ++ c ++ d) by (rewrite <- app_assoc; reflexivity).
  rewrite (slice_middle (a ++ b) c d 64 96) by (rewrite ?length_app; lia).
  replace ((a ++ b) ++ c ++ d) with ((a ++ b ++ c) ++ d ++ [])
    by (rewrite app_nil_r, <- !app_assoc; reflexivity).
  rewrite (slice_middle (a ++ b ++ c) d [] 96 128) by (rewrite ?length_app; lia).
  subst a b c d.
  rewrite !bytes32ToBigInt_scalar_be32 by assumption. reflexivity.
Qed.

(** C3.  For every G1 point with coordinates [x], [y] and every G2 point
    with coordinates [x0], [x1], [y0], [y1], all in [[0, 2^256)]:
    [encodeG1Point] yields the 64 bytes [x || y] and [encodeG2Point] the 128
    bytes [x0 || x1 || y0 || y1], each coordinate being its 32-byte big-endian
    encoding, and [decodeG1Point] / [decodeG2Point] of these bytes return the
    point that was encoded. *)
Theorem point_codec_roundtrip (x y x0 x1 y0 y1 : Z) :
  coordinate x -> coordinate y ->
  coordinate x0 -> coordinate x1 -> coordinate y0 -> coordinate y1 ->
  (encodeG1Point (G1_point x y) = Ok (scalar_be32 x ++ scalar_be32 y) /\
   length (scalar_be32 x ++ scalar_be32 y) = 64%nat /\
   obind (encodeG1Point (G1_point x y)) decodeG1Point = Ok (G1_point x y)) /\
  (encodeG2Point (G2_point x0 x1 y0 y1)
     = Ok (scalar_be32 x0 ++ scalar_be32 x1 ++ scalar_be32 y0 ++ scalar_be32 y1) /\
   length (scalar_be32 x0 ++ scalar_be32 x1 ++ scalar_be32 y0 ++ scalar_be32 y1)
     = 128%nat /\
   obind (encodeG2Point (G2_point x0 x1 y0 y1)) decodeG2Point
     = Ok (G2_point x0 x1 y0 y1)).
Proof.
  intros Hx Hy H0 H1 H2 H3.
  rewrite encodeG1Point_G1_point, encodeG2Point_G2_point. cbn [obind].
  rewrite decodeG1Point_be32, decodeG2Point_be32 by assumption.
  rewrite !length_app, !scalar_be32_length. repeat split; reflexivity.
Qed.

Lemma point_codec_roundtrip_witness :
  (encodeG1Point (G1_point 1 2) = Ok (scalar_be32 1 ++ scalar_be32 2) /\
   length (scalar_be32 1 ++ scalar_be32 2) = 64%nat /\
   obind (encodeG1Point (G1_point 1 2)) decodeG1Point = Ok (G1_point 1 2)) /\
  (encodeG2Point
     (G2_point
        10857046999023057135944570762232829481370756359578518086990519993285655852781
        11559732032986387107991004021392285783925812861821192530917403151452391805634
        8495653923123431417604973247489272438418190587263600148770280649306958101930
        4082367875863433681332203403145435568316851327593401208105741076214120093531)
     = Ok (scalar_be32
             10857046999023057135944570762232829481370756359578518086990519993285655852781
           ++ scalar_be32
             11559732032986387107991004021392285783925812861821192530917403151452391805634
           ++ scalar_be32
             8495653923123431417604973247489272438418190587263600148770280649306958101930
           ++ scalar_be32
             4082367875863433681332203403145435568316851327593401208105741076214120093531) /\
   length
     (scalar_be32
        10857046999023057135944570762232829481370756359578518086990519993285655852781
      ++ scalar_be32
        11559732032986387107991004021392285783925812861821192530917403151452391805634
      ++ scalar_be32
        8495653923123431417604973247489272438418190587263600148770280649306958101930
      ++ scalar_be32
        4082367875863433681332203403145435568316851327593401208105741076214120093531)
     = 128%nat /\
   obind
     (encodeG2Point
        (G2_point
           10857046999023057135944570762232829481370756359578518086990519993285655852781
           11559732032986387107991004021392285783925812861821192530917403151452391805634
           8495653923123431417604973247489272438418190587263600148770280649306958101930
           4082367875863433681332203403145435568316851327593401208105741076214120093531))
     decodeG2Point
     = Ok (G2_point
             10857046999023057135944570762232829481370756359578518086990519993285655852781
             11559732032986387107991004021392285783925812861821192530917403151452391805634
             8495653923123431417604973247489272438418190587263600148770280649306958101930
             4082367875863433681332203403145435568316851327593401208105741076214120093531)).
Proof.
  apply point_codec_roundtrip; unfold coordinate; split; (lia || reflexivity).
Defined.

(** The decoding loop computes the big-endian value; nothing in it can fail. *)
Lemma bytesToBigInt_loop_fold r bytes :
  Forall is_byte bytes ->
  bytesToBigInt_loop r bytes = fold_left (fun acc b => acc * 256 + b) bytes r.
Proof.
  intros H. revert r. induction H as [|b bytes Hb _ IH]; intros r; [reflexivity|].
  cbn [bytesToBigInt_loop fold_left]. rewrite lor_shiftl_byte by exact Hb. apply IH.
Qed.

Lemma be_value_fold_bound bytes : forall r k,
  Forall is_byte bytes -> 0 <= r < 256 ^ Z.of_nat k ->
  0 <= fold_left (fun acc b => acc * 256 + b) bytes r
     < 256 ^ Z.of_nat (k + length bytes).
Proof.
  induction bytes as [|b bytes IH]; intros r k H Hr.
  - rewrite Nat.add_0_r. exact Hr.
  - inversion H as [|? ? Hb Hrest]; subst. cbn [fold_left length].
    replace (k + S (length bytes))%nat with (S k + length bytes)%nat by lia.
    apply IH; [exact Hrest|].
    replace (Z.of_nat (S k)) with (Z.of_nat k + 1) by lia.
    rewrite Z.pow_add_r by lia. unfold is_byte in Hb. lia.
Qed.

(** C4, as amended.  The scalar codec validates nothing and never fails.
    Encoding any integer [v], negative or above [2^256 - 1] included, returns
    32 bytes: the big-endian encoding of [v mod 2^256], which decodes to
    [v mod 2^256].  Decoding a buffer of any length [n] returns its big-endian
    value, a number in [[0, 256^n)]. *)
Theorem scalar_codec_never_fails (v : Z) (bytes : list Z) :
  Forall is_byte bytes ->
  bigIntToBytes v = scalar_be32 (v mod 2 ^ 256) /\
  length (bigIntToBytes v) = 32%nat /\
  bytesToBigInt (bigIntToBytes v) = v mod 2 ^ 256 /\
  bytesToBigInt bytes = be_value bytes /\
  0 <= bytesToBigInt bytes < 256 ^ Z.of_nat (length bytes).
Proof.
  intros Hbytes. split; [|split; [|split; [|split]]].
  - rewrite <- bigIntToBytes_scalar_be32. symmetry. apply bigIntToBytes_mod.
  - apply bigIntToBytes_length.
  - apply bytesToBigInt_bigIntToBytes.
  - apply bytesToBigInt_loop_fold, Hbytes.
  - unfold bytesToBigInt. rewrite bytesToBigInt_loop_fold by exact Hbytes.
    apply (be_value_fold_bound bytes 0 0 Hbytes). simpl. lia.
Qed.

Lemma scalar_codec_never_fails_witness :
  bigIntToBytes (-1) = scalar_be32 ((-1) mod 2 ^ 256) /\
  length (bigIntToBytes (-1)) = 32%nat /\
  bytesToBigInt (bigIntToBytes (-1)) = (-1) mod 2 ^ 256 /\
  bytesToBigInt [1; 2; 3] = be_value [1; 2; 3] /\
  0 <= bytesToBigInt [1; 2; 3] < 256 ^ Z.of_nat (length [1; 2; 3]).
Proof.
  apply (scalar_codec_never_fails (-1) [1; 2; 3]).
  repeat constructor; unfold is_byte; lia.
Defined.

(** C4, the claim as stated fails: a negative value and a value above
    [2^256 - 1] are encoded (wrapped modulo [2^256]) rather than rejected, and
    buffers of 2 and of 33 bytes are decoded rather than rejected. *)
Lemma scalar_codec_accepts_out_of_range :
  bigIntToBytes (-1) = replicate 32 255 /\
  bigIntToBytes (2 ^ 256 + 5) = replicate 31 0 ++ [5] /\
  bytesToBigInt [1; 2] = 258 /\
  bytesToBigInt (1 :: replicate 32 0) = 2 ^ 256.
Proof. repeat split; vm_compute; reflexivity. Qed.

End CodecProperties.

(** ** Reasoning about world computations *)

Module RuntimeFacts.
Import Properties.

Lemma bind_Ok_inv {A B} (m : M A) (k : A -> M B) w b w' :
  bind m k w = (Ok b, w') ->
  exists a w1, m w = (Ok a, w1) /\ k a w1 = (Ok b, w').
Proof.
  unfold bind. destruct (m w) as [[a|e] w1]; intros H; [eauto | discriminate].
Qed.

Lemma bind_Throw_inv {A B} (m : M A) (k : A -> M B) w e w' :
  bind m k w = (Throw e, w') ->
  m w = (Throw e, w') \/ exists a w1, m w = (Ok a, w1) /\ k a w1 = (Throw e, w').
Proof.
  unfold bind. destruct (m w) as [[a|e0] w1]; intros H; [right; eauto|].
  left. injection H as -> ->. reflexivity.
Qed.

Lemma bind_run_Ok {A B} (m : M A) (k : A -> M B) w a w1 :
  m w = (Ok a, w1) -> bind m k w = k a w1.
Proof. unfold bind. intros ->. reflexivity. Qed.

Lemma bind_run_Throw {A B} (m : M A) (k : A -> M B) w e w1 :
  m w = (Throw e, w1) -> bind m k w = (Throw e, w1).
Proof. unfold bind. intros ->. reflexivity. Qed.

Lemma try_catch_run_Ok {A} (m : M A) h w a w1 :
  m w = (Ok a, w1) -> try_catch m h w = (Ok a, w1).
Proof. unfold try_catch. intros ->. reflexivity. Qed.

Lemma try_catch_run_Throw {A} (m : M A) h w e w1 :
  m w = (Throw e, w1) -> try_catch m h w = h e w1.
Proof. unfold try_catch. intros ->. reflexivity. Qed.

(** Computations that leave the blinding-factor store alone compose. *)
Lemma keeps_store_ret {A} (a : A) : keeps_store (ret a).
Proof. intros w r w' [= _ <-]. reflexivity. Qed.

Lemma keeps_store_throw {A} e : keeps_store (@throw A e).
Proof. intros w r w' [= _ <-]. reflexivity. Qed.

Lemma keeps_store_lift {A} (o : outcome A) : keeps_store (lift o).
Proof. intros w r w' [= _ <-]. reflexivity. Qed.

Lemma keeps_store_log e : keeps_store (log e).
Proof. intros w r w' [= _ <-]. reflexivity. Qed.

Lemma keeps_store_call_out {A} (answer : World -> outcome A) e :
  keeps_store (call_out answer e).
Proof. intros w r w' [= _ <-]. reflexivity. Qed.

Lemma keeps_store_bind {A B} (m : M A) (k : A -> M B) :
  keeps_store m -> (forall a, keeps_store (k a)) -> keeps_store (bind m k).
Proof.
  intros Hm Hk w r w'. unfold bind.
  destruct (m w) as [[a|e] w1] eqn:Hmw; intros H.
  - rewrite (Hk a w1 r w' H). exact (Hm w _ w1 Hmw).
  - injection H as _ <-. exact (Hm w _ w1 Hmw).
Qed.

Lemma keeps_store_try_catch {A} (m : M A) h :
  keeps_store m -> (forall e, keeps_store (h e)) -> keeps_store (try_catch m h).
Proof.
  intros Hm Hh w r w'. unfold try_catch.
  destruct (m w) as [[a|e] w1] eqn:Hmw; intros H.
  - injection H as _ <-. exact (Hm w _ w1 Hmw).
  - rewrite (Hh e w1 r w' H). exact (Hm w _ w1 Hmw).
Qed.

(** Computations that throw only errors in [P] compose. *)
Lemma throws_only_ret {A} P (a : A) : throws_only P (ret a).
Proof. intros w e w' [=]. Qed.

Lemma throws_only_throw {A} (P : js_error -> Prop) e :
  P e -> throws_only P (@throw A e).
Proof. intros HP w e' w' [= <- _]. exact HP. Qed.

Lemma throws_only_lift {A} (P : js_error -> Prop) (o : outcome A) :
  (forall e, o = Throw e -> P e) -> throws_only P (lift o).
Proof. intros HP w e w' [= -> _]. apply HP. reflexivity. Qed.

Lemma throws_only_log P ev : throws_only P (log ev).
Proof. intros w e w' [=]. Qed.

Lemma throws_only_call_out {A} (P : js_error -> Prop) (answer : World -> outcome A) ev :
  (forall w e, answer w = Throw e -> P e) -> throws_only P (call_out answer ev).
Proof. intros HP w e w' [= H _]. exact (HP w e H). Qed.

Lemma throws_only_bind {A B} P (m : M A) (k : A -> M B) :
  throws_only P m -> (forall a, throws_only P (k a)) -> throws_only P (bind m k).
Proof.
  intros Hm Hk w e w' H. apply bind_Throw_inv in H as [H|(a & w1 & _ & H)].
  - exact (Hm _ _ _ H).
  - exact (Hk a _ _ _ H).
Qed.

Lemma throws_only_try_catch {A} P (m : M A) h :
  (forall e, throws_only P (h e)) -> throws_only P (try_catch m h).
Proof.
  intros Hh w e w'. unfold try_catch.
  destruct (m w) as [[a|e0] w1]; [discriminate|]. apply Hh.
Qed.

End RuntimeFacts.

(** ** Commitments and nullifiers *)

Module CommitmentProperties.
Import Codec Commitment Groth16 Properties CodecFacts RuntimeFacts.

Lemma getPoseidon_run E w :
  getPoseidon E w = (Ok (poseidon_at E w), set_poseidonInstance (Some (poseidon_at E w)) w).
Proof.
  unfold getPoseidon, poseidon_at. destruct w as [[p|] bf rd tr]; reflexivity.
Qed.

Lemma poseidon_at_cached E w p :
  poseidon_at E (set_poseidonInstance (Some p) w) = p.
Proof. reflexivity. Qed.

Lemma set_poseidonInstance_idem p w :
  set_poseidonInstance (Some p) (set_poseidonInstance (Some p) w)
  = set_poseidonInstance (Some p) w.
Proof. reflexivity. Qed.

Lemma generateCommitment_run E s b w :
  generateCommitment E s b w
  = (Ok (bigIntToBytes (poseidon_at E w [s; bytesToBigInt b])),
     set_poseidonInstance (Some (poseidon_at E w)) w).
Proof.
  unfold generateCommitment. rewrite (bind_run_Ok _ _ _ _ _ (getPoseidon_run E w)).
  reflexivity.
Qed.

Lemma verifyCommitment_run E c s b w :
  verifyCommitment E c s b w
  = (Ok (areEqual c (bigIntToBytes (poseidon_at E w [s; bytesToBigInt b]))),
     set_poseidonInstance (Some (poseidon_at E w)) w).
Proof.
  unfold verifyCommitment.
  rewrite (bind_run_Ok _ _ _ _ _ (generateCommitment_run E s b w)). reflexivity.
Qed.

Lemma generateNullifier_run E c period secret w :
  generateNullifier E (Some c) period secret w
  = (Ok (bigIntToBytes (poseidon_at E w [bytesToBigInt c; period; bytesToBigInt secret])),
     set_poseidonInstance (Some (poseidon_at E w)) w).
Proof.
  unfold generateNullifier. rewrite (bind_run_Ok _ _ _ _ _ (getPoseidon_run E w)).
  reflexivity.
Qed.

Lemma same_but_cache_set p w : same_but_cache w (set_poseidonInstance p w).
Proof. repeat split. Qed.

(** C2.  [verifyCommitment(c, s, b)] answers [true] exactly when
    [generateCommitment(s, b)] is [c], byte for byte; verifying a commitment
    just generated from the same salary and blinding factor answers [true];
    and neither call touches anything but the lazily built Poseidon instance:
    the blinding-factor store, the random source and the trace of outside
    calls are as before, and a second call changes nothing at all. *)
Theorem verifyCommitment_iff_generateCommitment
    (E : Env) (c : list Z) (s : Z) (b : list Z) (w : World) :
  let g := bigIntToBytes (poseidon_at E w [s; bytesToBigInt b]) in
  let w' := set_poseidonInstance (Some (poseidon_at E w)) w in
  generateCommitment E s b w = (Ok g, w') /\
  (exists v, verifyCommitment E c s b w = (Ok v, w') /\ (v = true <-> g = c)) /\
  verifyCommitment E g s b w' = (Ok true, w') /\
  same_but_cache w w'.
Proof.
  intros g w'. split; [apply generateCommitment_run|]. split; [|split].
  - exists (areEqual c g). split; [apply verifyCommitment_run|].
    rewrite areEqual_true_iff. split; congruence.
  - rewrite verifyCommitment_run. subst w'. rewrite poseidon_at_cached.
    fold g. rewrite set_poseidonInstance_idem.
    assert (Hg : areEqual g g = true) by (apply areEqual_true_iff; reflexivity).
    rewrite Hg. reflexivity.
  - apply same_but_cache_set.
Qed.

(** Two encodings are equal only if the values agree modulo [2^256]. *)
Lemma bigIntToBytes_inj_mod a b :
  bigIntToBytes a = bigIntToBytes b -> a mod 2 ^ 256 = b mod 2 ^ 256.
Proof.
  intros H. rewrite <- !bytesToBigInt_bigIntToBytes, H. reflexivity.
Qed.

(** [generateNullifier] alone is a function of its three arguments and
    of the hash instance: two calls with the same commitment, period and secret, in
    worlds that hold the same Poseidon instance, return the same nullifier. *)
Theorem generateNullifier_deterministic E c period secret w1 w2 :
  poseidon_at E w1 = poseidon_at E w2 ->
  fst (generateNullifier E (Some c) period secret w1)
  = fst (generateNullifier E (Some c) period secret w2).
Proof. intros H. rewrite !generateNullifier_run, H. reflexivity. Qed.

Lemma generateNullifier_deterministic_witness :
  fst (generateNullifier Fixtures.stubEnv (Some (replicate 32 9)) 202601
         (replicate 32 7) Fixtures.emptyWorld)
  = fst (generateNullifier Fixtures.stubEnv (Some (replicate 32 9)) 202601
           (replicate 32 7) Fixtures.laterWorld).
Proof.
  apply (generateNullifier_deterministic Fixtures.stubEnv (replicate 32 9) 202601
           (replicate 32 7) Fixtures.emptyWorld Fixtures.laterWorld).
  reflexivity.
Defined.

(** The nullifier [generatePaymentProof] attaches is the one derived from the
    clock reading. *)
Lemma generatePaymentProof_nullifier E params c w proof w' :
  gp_commitment params = Some c ->
  generatePaymentProof E params w = (Ok proof, w') ->
  nullifier proof
  = bigIntToBytes
      (poseidon_at E w
         [bytesToBigInt c; Date_now E w; bytesToBigInt (gp_blindingFactor params)]).
Proof.
  intros Hc Hrun. unfold generatePaymentProof in Hrun. rewrite Hc in Hrun.
  apply bind_Ok_inv in Hrun as (now & w1 & Hnow & Hrun).
  injection Hnow as <- <-.
  apply bind_Ok_inv in Hrun as (nf & w2 & Hnf & Hrun).
  rewrite generateNullifier_run in Hnf. injection Hnf as <- <-.
  apply bind_Ok_inv in Hrun as (cb & w3 & Hcb & Hrun).
  injection Hcb as <- <-.
  unfold try_catch in Hrun.
  match type of Hrun with
  | (match ?m with _ => _ end) = _ => destruct m as [[pr|e] w4] eqn:Hbody
  end; [|discriminate Hrun].
  injection Hrun as <- <-.
  apply bind_Ok_inv in Hbody as (sp & w5 & _ & Hbody).
  apply bind_Ok_inv in Hbody as (a & w6 & _ & Hbody).
  apply bind_Ok_inv in Hbody as (b & w7 & _ & Hbody).
  apply bind_Ok_inv in Hbody as (c' & w8 & _ & Hbody).
  injection Hbody as <- _. reflexivity.
Qed.

(** C1, on the code.  [generatePaymentProof] derives the nullifier from
    [Date.now()], not from a period: two successful invocations with the same
    commitment and the same blinding factor, under the same Poseidon instance,
    made when the clock reads two values the hash tells apart, attach
    different nullifiers. *)
Theorem generatePaymentProof_nullifier_follows_clock
    (E : Env) (params : GenerateProofParams) (c : list Z)
    (w1 w2 : World) (p1 p2 : Groth16Proof) :
  gp_commitment params = Some c ->
  poseidon_at E w2 = poseidon_at E w1 ->
  fst (generatePaymentProof E params w1) = Ok p1 ->
  fst (generatePaymentProof E params w2) = Ok p2 ->
  poseidon_at E w1
    [bytesToBigInt c; Date_now E w1; bytesToBigInt (gp_blindingFactor params)]
    mod 2 ^ 256
  <> poseidon_at E w1
       [bytesToBigInt c; Date_now E w2; bytesToBigInt (gp_blindingFactor params)]
       mod 2 ^ 256 ->
  nullifier p1 <> nullifier p2.
Proof.
  intros Hc Hhash H1 H2 Hsep Heq.
  destruct (generatePaymentProof E params w1) as [r1 w1'] eqn:R1.
  destruct (generatePaymentProof E params w2) as [r2 w2'] eqn:R2.
  cbn [fst] in H1, H2. subst r1 r2.
  rewrite (generatePaymentProof_nullifier E params c w1 p1 w1' Hc R1) in Heq.
  rewrite (generatePaymentProof_nullifier E params c w2 p2 w2' Hc R2) in Heq.
  apply bigIntToBytes_inj_mod in Heq.
  apply Hsep. rewrite Heq, Hhash. reflexivity.
Qed.

(** Two invocations in a row, the second in the world the first left. *)
Lemma generatePaymentProof_nullifier_follows_clock_witness :
  exists p1 p2,
    fst (generatePaymentProof Fixtures.stubEnv Fixtures.sampleProofParams
           Fixtures.emptyWorld) = Ok p1 /\
    fst (generatePaymentProof Fixtures.stubEnv Fixtures.sampleProofParams
           Fixtures.afterFirstProof) = Ok p2 /\
    nullifier p1 <> nullifier p2.
Proof.
  let r1 := eval vm_compute in
      (fst (generatePaymentProof Fixtures.stubEnv Fixtures.sampleProofParams
              Fixtures.emptyWorld)) in
  let r2 := eval vm_compute in
      (fst (generatePaymentProof Fixtures.stubEnv Fixtures.sampleProofParams
              Fixtures.afterFirstProof)) in
  lazymatch r1 with
  | Ok ?p1 =>
      lazymatch r2 with
      | Ok ?p2 =>
          assert (H1 : fst (generatePaymentProof Fixtures.stubEnv
                              Fixtures.sampleProofParams Fixtures.emptyWorld) = Ok p1)
            by (vm_compute; reflexivity);
          assert (H2 : fst (generatePaymentProof Fixtures.stubEnv
                              Fixtures.sampleProofParams Fixtures.afterFirstProof)
                       = Ok p2)
            by (vm_compute; reflexivity);
          exists p1, p2
      end
  end.
  split; [exact H1|]. split; [exact H2|].
  refine (generatePaymentProof_nullifier_follows_clock
            Fixtures.stubEnv Fixtures.sampleProofParams (replicate 32 9)
            Fixtures.emptyWorld Fixtures.afterFirstProof _ _
            eq_refl eq_refl H1 H2 _).
  vm_compute. intros H. discriminate H.
Defined.

End CommitmentProperties.

(** ** Local proof verification *)

Module VerificationProperties.
Import Codec Commitment Groth16 Properties CodecFacts RuntimeFacts.

(** C5.  [verifyProofLocally] always returns a boolean and never throws:
    whatever the proof, the public inputs, the world and the behaviour of the
    external verifier, the call ends in [Ok b]; when the [try] block fails
    with any error the answer is [false] (the error is only logged), and when
    it succeeds the answer is the verifier's. *)
Theorem verifyProofLocally_total
    (E : Env) (proof : Groth16Proof) (publicInputs : PublicInputs) (w : World) :
  (exists b w', verifyProofLocally E proof publicInputs w = (Ok b, w')) /\
  (forall e w1,
      verifyProofLocally_try E proof publicInputs w = (Throw e, w1) ->
      verifyProofLocally E proof publicInputs w
      = (Ok false,
         emit (ConsoleError ("Verification error: " +:+ String_of_error e)) w1)) /\
  (forall b w1,
      verifyProofLocally_try E proof publicInputs w = (Ok b, w1) ->
      verifyProofLocally E proof publicInputs w = (Ok b, w1)).
Proof.
  unfold verifyProofLocally, try_catch.
  destruct (verifyProofLocally_try E proof publicInputs w) as [[b|e] w1] eqn:Htry.
  - split; [eauto|]. split; [discriminate|]. intros b' w1' [= <- <-]. reflexivity.
  - split; [|split].
    + eexists _, _. reflexivity.
    + intros e' w1' [= <- <-]. reflexivity.
    + discriminate.
Qed.

(** A point buffer shorter than 64 bytes makes [decodeG1Point] throw. *)
Lemma decodeG1Point_short bytes :
  (length bytes < 64)%nat -> exists e, decodeG1Point bytes = Throw e.
Proof.
  intros Hlen. unfold decodeG1Point.
  destruct (bytes32ToBigInt (slice bytes 0 32)) as [x|e] eqn:Hx; [|eauto].
  cbn [obind].
  destruct (bytes32ToBigInt_loop_short 32 0 0 (slice bytes 32 64)) as [e He].
  - unfold slice. rewrite length_take, length_drop. lia.
  - lia.
  - unfold bytes32ToBigInt. rewrite He. eauto.
Qed.

(** A proof whose [a] component is shorter than 64 bytes makes the
    decoder throw inside the [try] block, and the verdict is [false]. *)
Theorem verifyProofLocally_truncated E proof publicInputs w :
  (length (proof_a proof) < 64)%nat ->
  fst (verifyProofLocally E proof publicInputs w) = Ok false.
Proof.
  intros Hlen. destruct (decodeG1Point_short _ Hlen) as [e He].
  unfold verifyProofLocally.
  rewrite (try_catch_run_Throw _ _ w e w); [reflexivity|].
  unfold verifyProofLocally_try. apply bind_run_Throw. unfold lift. rewrite He.
  reflexivity.
Qed.

Lemma verifyProofLocally_truncated_witness :
  fst (verifyProofLocally Fixtures.stubEnv
         {| proof_a := replicate 63 0; proof_b := replicate 128 0;
            proof_c := replicate 64 0; nullifier := replicate 32 0 |}
         {| pub_commitment := replicate 32 9; pub_nullifier := replicate 32 0;
            pub_recipientHash := "0" |}
         Fixtures.emptyWorld)
  = Ok false.
Proof.
  apply (verifyProofLocally_truncated Fixtures.stubEnv
           {| proof_a := replicate 63 0; proof_b := replicate 128 0;
              proof_c := replicate 64 0; nullifier := replicate 32 0 |}).
  simpl. lia.
Defined.

End VerificationProperties.

(** ** The client: ledger plumbing and the blinding-factor store *)

Module ClientFacts.
Import Codec Commitment Groth16 Client Properties CodecFacts RuntimeFacts.
Import CommitmentProperties.

Lemma buildTransaction_run E C operation w :
  buildTransaction E C operation w
  = (match server_getAccount E w (publicKey C) with
     | Ok _ =>
         Ok {| tx_fee := "100"; tx_networkPassphrase := networkPassphrase C;
               tx_operation := operation; tx_timeout := 30; tx_signer := None |}
     | Throw e => Throw e
     end,
     emit (GetAccount (publicKey C)) w).
Proof.
  unfold buildTransaction, bind, call_out, ret.
  destruct (server_getAccount E w (publicKey C)); reflexivity.
Qed.

Lemma submitTransaction_run E C operation w :
  submitTransaction E C
    {| tx_fee := "100"; tx_networkPassphrase := networkPassphrase C;
       tx_operation := operation; tx_timeout := 30; tx_signer := None |} w
  = (server_sendTransaction E w (signedTx C operation),
     emit (SendTransaction (signedTx C operation)) w).
Proof. reflexivity. Qed.

(** Building, then submitting, then continuing: the ledger decides. *)
Lemma build_submit_run E C operation {A} (k : unit -> M A) w :
  bind (buildTransaction E C operation)
       (fun tx => bind (submitTransaction E C tx) k) w
  = match server_getAccount E w (publicKey C) with
    | Throw e => (Throw e, emit (GetAccount (publicKey C)) w)
    | Ok _ =>
        match server_sendTransaction E (emit (GetAccount (publicKey C)) w)
                (signedTx C operation) with
        | Throw e => (Throw e, after_submit C operation w)
        | Ok u => k u (after_submit C operation w)
        end
    end.
Proof.
  unfold bind at 1. rewrite buildTransaction_run.
  destruct (server_getAccount E w (publicKey C)) as [[]|e]; [|reflexivity].
  unfold bind. rewrite submitTransaction_run.
  destruct (server_sendTransaction E (emit (GetAccount (publicKey C)) w)
              (signedTx C operation)); reflexivity.
Qed.

Lemma new_Contract_run E address w :
  new_Contract E address w
  = (match Contract_new E address with
     | Ok _ => Ok address
     | Throw e => Throw e
     end, w).
Proof.
  unfold new_Contract, lift. destruct (Contract_new E address); reflexivity.
Qed.

Lemma keeps_store_getPoseidon E : keeps_store (getPoseidon E).
Proof. intros w r w'. rewrite getPoseidon_run. intros [= _ <-]. reflexivity. Qed.

Lemma keeps_store_Date_now E : keeps_store (Date_now_call E).
Proof. intros w r w' [= _ <-]. reflexivity. Qed.

Lemma keeps_store_get key : keeps_store (blindingFactors_get key).
Proof. intros w r w' [= _ <-]. reflexivity. Qed.

(** Discharges [keeps_store] goals over computations built from the
    primitives that do not write the store. *)
Ltac keeps_store_tac :=
  repeat first
    [ apply keeps_store_ret | apply keeps_store_throw | apply keeps_store_lift
    | apply keeps_store_log | apply keeps_store_call_out
    | apply keeps_store_getPoseidon | apply keeps_store_Date_now
    | apply keeps_store_get
    | apply keeps_store_bind; [|intros ?]
    | apply keeps_store_try_catch; [|intros ?]
    | match goal with
      | |- keeps_store (match ?x with _ => _ end) => destruct x
      end ].

Lemma keeps_store_buildTransaction E C operation :
  keeps_store (buildTransaction E C operation).
Proof. unfold buildTransaction. keeps_store_tac. Qed.

Lemma keeps_store_submitTransaction E C tx : keeps_store (submitTransaction E C tx).
Proof. unfold submitTransaction. keeps_store_tac. Qed.


Lemma keeps_store_processPayment E C params : keeps_store (processPayment E C params).
Proof.
  unfold processPayment, getEmployee, generatePaymentProof, generateNullifier,
    buildTransaction, submitTransaction, new_Contract.
  keeps_store_tac.
Qed.

(** X2.  The store key determines the company and the employee as long as
    company identifiers contain no [":"]. *)
Theorem storeKey_inj companyId1 employee1 companyId2 employee2 :
  has_colon companyId1 = false -> has_colon companyId2 = false ->
  storeKey companyId1 employee1 = storeKey companyId2 employee2 ->
  companyId1 = companyId2 /\ employee1 = employee2.
Proof.
  unfold storeKey. revert companyId2.
  induction companyId1 as [|c1 r1 IH]; intros [|c2 r2] H1 H2 Heq; cbn in *.
  - injection Heq as Heq. auto.
  - injection Heq as Hc _. subst c2. discriminate H2.
  - injection Heq as Hc _. subst c1. discriminate H1.
  - injection Heq as Hc Heq. subst c2.
    destruct (Ascii.eqb c1 ":"%char); [discriminate H1|].
    destruct (IH r2 H1 H2 Heq) as [Hr He]. subst. auto.
Qed.

Lemma storeKey_inj_witness :
  "ACME"%string = "ACME"%string /\ "GALICE"%string = "GALICE"%string.
Proof.
  apply (storeKey_inj "ACME" "GALICE" "ACME" "GALICE"); reflexivity.
Defined.

Lemma mapAuditScope_unknown scope timeRange :
  scope <> "full"%string -> scope <> "aggregate"%string ->
  scope <> "timeRange"%string ->
  mapAuditScope scope timeRange = Throw (Error ("Unknown scope: " +:+ scope)).
Proof.
  intros H1 H2 H3. unfold mapAuditScope.
  repeat (destruct (decide _); [contradiction|]). reflexivity.
Qed.

End ClientFacts.

(** ** View keys *)

Module ViewKeyProperties.
Import Codec Commitment Groth16 Client Properties RuntimeFacts ClientFacts.

(** C6, as amended.  [generateViewKey] validates the scope only.  Once the
    executor contract is constructed it fails, before any ledger call, exactly
    when [mapAuditScope] rejects the scope: a ['timeRange'] scope without a
    time range, or a scope that is none of ['full'], ['aggregate'],
    ['timeRange'].  [durationDays] and the order of the range's start and end
    are not inspected: they are forwarded as given (the range in whole seconds)
    to the executor's [generate_view_key]; if the ledger accepts, the call
    returns the placeholder key, which has no expiry; any other failure is the
    contract constructor's or the ledger's. *)
Theorem generateViewKey_validates_scope_only
    (E : Env) (C : Config) (params : GenerateViewKeyParams) (w : World) :
  let scope := gvk_scope params in
  let range := gvk_timeRange params in
  let op sv :=
    contract_call (executor C) "generate_view_key"
      [VStr (gvk_companyId params); VStr (publicKey C);
       VStr (gvk_auditorAddress params); VScope sv;
       VNum (gvk_durationDays params)] in
  (forall e, mapAuditScope scope range = Throw e <->
     (scope = "timeRange"%string /\ range = None /\
      e = Error "timeRange required for timeRange scope") \/
     (scope <> "full"%string /\ scope <> "aggregate"%string /\
      scope <> "timeRange"%string /\ e = Error ("Unknown scope: " +:+ scope))) /\
  (forall start_ms end_ms,
     scope = "timeRange"%string -> range = Some (start_ms, end_ms) ->
     mapAuditScope scope range = Ok (TimeRange (start_ms / 1000) (end_ms / 1000))) /\
  (forall e, Contract_new E (executor C) = Ok tt ->
     mapAuditScope scope range = Throw e ->
     generateViewKey E C params w = (Throw e, w)) /\
  (forall sv, mapAuditScope scope range = Ok sv ->
     ledger_accepts E C (op sv) w ->
     generateViewKey E C params w = (Ok emptyViewKey, after_submit C (op sv) w)) /\
  (forall sv e w', mapAuditScope scope range = Ok sv ->
     generateViewKey E C params w = (Throw e, w') ->
     Contract_new E (executor C) = Throw e \/
     server_getAccount E w (publicKey C) = Throw e \/
     server_sendTransaction E (emit (GetAccount (publicKey C)) w)
       (signedTx C (op sv)) = Throw e) /\
  vk_expiresAt emptyViewKey = None.
Proof.
  intros scope range op.
  split; [|split; [|split; [|split; [|split]]]].
  - intros e. unfold mapAuditScope.
    destruct (decide (scope = "full"%string)) as [Hf|Hf].
    { split; [discriminate|]. intros [(Ht & _)|(Hn & _)]; [|contradiction].
      rewrite Hf in Ht. discriminate Ht. }
    destruct (decide (scope = "aggregate"%string)) as [Ha|Ha].
    { split; [discriminate|]. intros [(Ht & _)|(_ & Hn & _)]; [|contradiction].
      rewrite Ha in Ht. discriminate Ht. }
    destruct (decide (scope = "timeRange"%string)) as [Ht|Ht].
    { destruct range as [[s0 e0]|].
      - split; [discriminate|].
        intros [(_ & Hr & _)|(_ & _ & Hn & _)]; [discriminate Hr | contradiction].
      - split.
        + intros [= <-]. left. auto.
        + intros [(_ & _ & ->)|(_ & _ & Hn & _)]; [reflexivity | contradiction]. }
    split.
    + intros [= <-]. right. auto.
    + intros [(Hn & _)|(_ & _ & _ & ->)]; [contradiction | reflexivity].
  - intros start_ms end_ms Hs Hr. unfold mapAuditScope. rewrite Hs, Hr. reflexivity.
  - intros e Hc He. unfold generateViewKey.
    rewrite (bind_run_Ok _ _ w (executor C) w)
      by (rewrite new_Contract_run, Hc; reflexivity).
    apply bind_run_Throw. unfold lift. fold scope range. rewrite He. reflexivity.
  - intros sv Hsv (Hc & Hacc & Hsend). cbn [op op_contract contract_call] in Hc.
    unfold generateViewKey.
    rewrite (bind_run_Ok _ _ w (executor C) w)
      by (rewrite new_Contract_run, Hc; reflexivity).
    rewrite (bind_run_Ok _ _ w sv w)
      by (unfold lift; fold scope range; rewrite Hsv; reflexivity).
    rewrite build_submit_run. fold (op sv). rewrite Hacc, Hsend. reflexivity.
  - intros sv e w' Hsv. unfold generateViewKey. unfold bind at 1.
    rewrite new_Contract_run.
    destruct (Contract_new E (executor C)) as [[]|e0]; [|intros [= -> _]; auto].
    rewrite (bind_run_Ok _ _ w sv w)
      by (unfold lift; fold scope range; rewrite Hsv; reflexivity).
    rewrite build_submit_run. fold (op sv).
    destruct (server_getAccount E w (publicKey C)) as [[]|e0].
    + destruct (server_sendTransaction E (emit (GetAccount (publicKey C)) w)
                  (signedTx C (op sv))) as [[]|e1].
      * discriminate.
      * intros [= -> _]. auto.
    + intros [= -> _]. auto.
  - reflexivity.
Qed.

(** C6, the claim as stated fails: with a ledger that accepts, a view key
    request with [durationDays = 0], and one with a negative duration and a
    time range whose start is after its end, both succeed, and the key
    returned carries no expiry. *)
Lemma generateViewKey_accepts_bad_duration_and_range :
  generateViewKey Fixtures.stubEnv Fixtures.stubConfig
    {| gvk_companyId := "ACME"; gvk_auditorAddress := "GAUDITOR";
       gvk_scope := "full"; gvk_durationDays := 0; gvk_timeRange := None |}
    Fixtures.emptyWorld
  = (Ok emptyViewKey,
     after_submit Fixtures.stubConfig
       (contract_call "CEXECUTOR" "generate_view_key"
          [VStr "ACME"; VStr "GADMIN"; VStr "GAUDITOR"; VScope FullCompany; VNum 0])
       Fixtures.emptyWorld) /\
  generateViewKey Fixtures.stubEnv Fixtures.stubConfig
    {| gvk_companyId := "ACME"; gvk_auditorAddress := "GAUDITOR";
       gvk_scope := "timeRange"; gvk_durationDays := -3;
       gvk_timeRange := Some (2000000, 1000000) |}
    Fixtures.emptyWorld
  = (Ok emptyViewKey,
     after_submit Fixtures.stubConfig
       (contract_call "CEXECUTOR" "generate_view_key"
          [VStr "ACME"; VStr "GADMIN"; VStr "GAUDITOR";
           VScope (TimeRange 2000 1000); VNum (-3)])
       Fixtures.emptyWorld) /\
  vk_expiresAt emptyViewKey = None.
Proof. repeat split. Qed.

(** C10.  [generateViewKey] with a scope that is none of ['full'],
    ['aggregate'], ['timeRange'] always throws and leaves the world as it was:
    no ledger call is made, so no key is created; once the executor contract
    is constructed the error is [Unknown scope].  ['employeeList'] is the one
    variant of the public [AuditScope] type that is such a scope. *)
Theorem generateViewKey_rejects_employeeList
    (E : Env) (C : Config) (params : GenerateViewKeyParams) (w : World) :
  gvk_scope params <> "full"%string ->
  gvk_scope params <> "aggregate"%string ->
  gvk_scope params <> "timeRange"%string ->
  (exists e, generateViewKey E C params w = (Throw e, w)) /\
  (Contract_new E (executor C) = Ok tt ->
   generateViewKey E C params w
   = (Throw (Error ("Unknown scope: " +:+ gvk_scope params)), w)) /\
  (forall s : AuditScope,
      AuditScope_string s <> "full"%string /\
      AuditScope_string s <> "aggregate"%string /\
      AuditScope_string s <> "timeRange"%string <-> s = employeeList).
Proof.
  intros H1 H2 H3.
  assert (Hrun : generateViewKey E C params w
                 = match Contract_new E (executor C) with
                   | Ok _ => (Throw (Error ("Unknown scope: " +:+ gvk_scope params)), w)
                   | Throw e => (Throw e, w)
                   end).
  { unfold generateViewKey. unfold bind at 1. rewrite new_Contract_run.
    destruct (Contract_new E (executor C)) as [[]|e0]; [|reflexivity].
    apply bind_run_Throw. unfold lift.
    rewrite mapAuditScope_unknown by assumption. reflexivity. }
  split; [|split].
  - rewrite Hrun. destruct (Contract_new E (executor C)); eauto.
  - intros Hc. rewrite Hrun, Hc. reflexivity.
  - intros s. split.
    + intros (Hf & Ha & Ht). destruct s; simpl in *; congruence.
    + intros ->. simpl. repeat split; discriminate.
Qed.

Lemma generateViewKey_rejects_employeeList_witness :
  (exists e,
      generateViewKey Fixtures.stubEnv Fixtures.stubConfig
        {| gvk_companyId := "ACME"; gvk_auditorAddress := "GAUDITOR";
           gvk_scope := AuditScope_string employeeList; gvk_durationDays := 30;
           gvk_timeRange := None |}
        Fixtures.emptyWorld
      = (Throw e, Fixtures.emptyWorld)) /\
  (Contract_new Fixtures.stubEnv (executor Fixtures.stubConfig) = Ok tt ->
   generateViewKey Fixtures.stubEnv Fixtures.stubConfig
     {| gvk_companyId := "ACME"; gvk_auditorAddress := "GAUDITOR";
        gvk_scope := AuditScope_string employeeList; gvk_durationDays := 30;
        gvk_timeRange := None |}
     Fixtures.emptyWorld
   = (Throw (Error ("Unknown scope: " +:+ AuditScope_string employeeList)),
      Fixtures.emptyWorld)) /\
  (forall s : AuditScope,
      AuditScope_string s <> "full"%string /\
      AuditScope_string s <> "aggregate"%string /\
      AuditScope_string s <> "timeRange"%string <-> s = employeeList).
Proof.
  apply (generateViewKey_rejects_employeeList Fixtures.stubEnv Fixtures.stubConfig
           {| gvk_companyId := "ACME"; gvk_auditorAddress := "GAUDITOR";
              gvk_scope := AuditScope_string employeeList; gvk_durationDays := 30;
              gvk_timeRange := None |} Fixtures.emptyWorld);
    simpl; discriminate.
Defined.

End ViewKeyProperties.

(** ** Payments, batch payroll and the blinding-factor store *)

Module PayrollProperties.
Import Codec Commitment Groth16 Client Properties RuntimeFacts ClientFacts.
Import CommitmentProperties.

(** With a blinding factor in hand, the rest of [processPayment] raises the
    not-found error only if a collaborator rejects with that very value. *)
Lemma processPayment_present_errors E C params bf :
  never_rejects_with E blindingFactorNotFound ->
  throws_only (fun e => e <> blindingFactorNotFound)
    (let* employee := getEmployee E C (pay_employeeAddress params) in
     let* proof :=
       generatePaymentProof E
         {| gp_salary := pay_amount params;
            gp_blindingFactor := bf;
            gp_recipient := pay_employeeAddress params;
            gp_commitment := salaryCommitment employee |} in
     let* contract := new_Contract E (executor C) in
     let* tx :=
       buildTransaction E C
         (contract_call contract "execute_payment"
            [VStr (pay_companyId params); VStr (pay_employeeAddress params);
             VNum (pay_amount params);
             VBytes (proof_a proof); VBytes (proof_b proof); VBytes (proof_c proof);
             VBytes (nullifier proof); VNum (pay_period params)]) in
     let* _ := submitTransaction E C tx in
     ret {| success := true; transactionHash := Some ""%string; error := None;
            res_period := pay_period params;
            res_employeeAddress := pay_employeeAddress params |}).
Proof.
  intros (Hctor & Hacc & Hsim & Hsend).
  assert (Hnew : forall address,
             throws_only (fun e => e <> blindingFactorNotFound) (new_Contract E address)).
  { intros address. apply throws_only_lift. intros e He ->.
    destruct (Contract_new E address) as [[]|e0] eqn:Hc; [discriminate He|].
    injection He as ->. exact (Hctor address Hc). }
  assert (Hbuild : forall operation,
             throws_only (fun e => e <> blindingFactorNotFound)
               (buildTransaction E C operation)).
  { intros operation. apply throws_only_bind; [|intros ?; apply throws_only_ret].
    apply throws_only_call_out. intros w e He ->. exact (Hacc _ _ He). }
  assert (Hsubmit : forall tx,
             throws_only (fun e => e <> blindingFactorNotFound)
               (submitTransaction E C tx)).
  { intros tx. apply throws_only_call_out. intros w e He ->. exact (Hsend _ _ He). }
  apply throws_only_bind.
  { unfold getEmployee. apply throws_only_bind; [apply Hnew|]. intros contract.
    apply throws_only_bind; [apply Hbuild|]. intros tx.
    apply throws_only_bind; [|intros ?; apply throws_only_ret].
    apply throws_only_call_out. intros w e He ->. exact (Hsim _ _ He). }
  intros employee. apply throws_only_bind.
  { unfold generatePaymentProof. apply throws_only_bind.
    { intros w e w' [=]. }
    intros now. apply throws_only_bind.
    { unfold generateNullifier. apply throws_only_bind.
      { intros w e w'. rewrite getPoseidon_run. discriminate. }
      intros h. apply throws_only_bind; [|intros ?; apply throws_only_ret].
      apply throws_only_lift. intros e He ->.
      destruct (salaryCommitment employee); discriminate He. }
    intros nf. apply throws_only_bind.
    { apply throws_only_lift. intros e He ->.
      destruct (salaryCommitment employee); discriminate He. }
    intros cb. apply throws_only_try_catch. intros e0.
    apply throws_only_throw. discriminate. }
  intros proof. apply throws_only_bind; [apply Hnew|]. intros contract.
  apply throws_only_bind; [apply Hbuild|]. intros tx.
  apply throws_only_bind; [apply Hsubmit|]. intros ?. apply throws_only_ret.
Qed.

(** C7.  When no blinding factor is stored under
    [companyId:employeeAddress], [processPayment] throws the error
    ["Blinding factor not found. Was employee added via this SDK?"] and the
    world is exactly as before: no ledger call, no proof generation, no
    submission, and no secret of any kind is substituted.  The error is
    distinct: when a blinding factor is stored, [processPayment] does not
    throw it, unless a collaborator itself rejects with that very value. *)
Theorem processPayment_missing_blinding_factor
    (E : Env) (C : Config) (params : ProcessPaymentParams) (w : World) :
  let key := storeKey (pay_companyId params) (pay_employeeAddress params) in
  (blindingFactors w !! key = None ->
   processPayment E C params w = (Throw blindingFactorNotFound, w)) /\
  (forall bf e w',
     blindingFactors w !! key = Some bf ->
     never_rejects_with E blindingFactorNotFound ->
     processPayment E C params w = (Throw e, w') ->
     e <> blindingFactorNotFound).
Proof.
  intros key. split.
  - intros Hnone. unfold processPayment, bind, blindingFactors_get.
    fold key. rewrite Hnone. reflexivity.
  - intros bf e w' Hsome Hnever Hrun. unfold processPayment in Hrun.
    rewrite (bind_run_Ok _ _ w (Some bf) w) in Hrun
      by (unfold blindingFactors_get; fold key; rewrite Hsome; reflexivity).
    exact (processPayment_present_errors E C params bf Hnever _ _ _ Hrun).
Qed.

Lemma processPayment_missing_blinding_factor_witness :
  processPayment Fixtures.stubEnv Fixtures.stubConfig
    {| pay_companyId := "ACME"; pay_employeeAddress := "GEMPLOYEE";
       pay_amount := 500000; pay_period := 202601 |}
    Fixtures.emptyWorld
  = (Throw blindingFactorNotFound, Fixtures.emptyWorld) /\
  (exists e,
      fst (processPayment Fixtures.stubEnv Fixtures.stubConfig
             {| pay_companyId := "ACME"; pay_employeeAddress := "GALICE";
                pay_amount := 500000; pay_period := 202601 |}
             Fixtures.twoEmployees) = Throw e /\
      e <> blindingFactorNotFound).
Proof.
  split.
  - apply (processPayment_missing_blinding_factor Fixtures.stubEnv Fixtures.stubConfig
             {| pay_companyId := "ACME"; pay_employeeAddress := "GEMPLOYEE";
                pay_amount := 500000; pay_period := 202601 |} Fixtures.emptyWorld).
    reflexivity.
  - pose proof (surjective_pairing
                  (processPayment Fixtures.stubEnv Fixtures.stubConfig
                     {| pay_companyId := "ACME"; pay_employeeAddress := "GALICE";
                        pay_amount := 500000; pay_period := 202601 |}
                     Fixtures.twoEmployees)) as Hrun.
    assert (Hfst : fst (processPayment Fixtures.stubEnv Fixtures.stubConfig
                          {| pay_companyId := "ACME"; pay_employeeAddress := "GALICE";
                             pay_amount := 500000; pay_period := 202601 |}
                          Fixtures.twoEmployees)
                   = Throw (TypeError
                              "Cannot read properties of undefined (reading 'length')"))
      by (vm_compute; reflexivity).
    rewrite Hfst in Hrun. eexists. split; [exact Hfst|].
    refine (proj2 (processPayment_missing_blinding_factor Fixtures.stubEnv
                     Fixtures.stubConfig
                     {| pay_companyId := "ACME"; pay_employeeAddress := "GALICE";
                        pay_amount := 500000; pay_period := 202601 |}
                     Fixtures.twoEmployees)
              (replicate 32 1) _ _ _ _ Hrun).
    + vm_compute. reflexivity.
    + repeat split; intros; discriminate.
Defined.

(** A payment that succeeds reports the employee and the period it was asked
    for. *)
Lemma processPayment_Ok E C params w r w' :
  processPayment E C params w = (Ok r, w') ->
  success r = true /\ res_employeeAddress r = pay_employeeAddress params /\
  res_period r = pay_period params.
Proof.
  unfold processPayment. intros H.
  apply bind_Ok_inv in H as (stored & w1 & _ & H).
  destruct stored as [bf|]; [|discriminate H].
  apply bind_Ok_inv in H as (emp & w2 & _ & H).
  apply bind_Ok_inv in H as (proof & w3 & _ & H).
  apply bind_Ok_inv in H as (contract & w4 & _ & H).
  apply bind_Ok_inv in H as (tx & w5 & _ & H).
  apply bind_Ok_inv in H as (u & w6 & _ & H).
  injection H as <- _. auto.
Qed.

Lemma generateBlindingFactor_run E w :
  generateBlindingFactor E w
  = (Ok (map (fun i : nat => getRandomValues E (randomDraws w) i mod 256) (seq 0 32)),
     set_randomDraws (S (randomDraws w)) w).
Proof. reflexivity. Qed.

(** C8.  [deactivateEmployee], when it completes, has removed the entry under
    [companyId:employeeAddress] (it completes whenever the ledger accepts the
    deactivation; if the ledger rejects, it throws and the store is as
    before).  [updateSalary] replaces the entry under its key with the 32
    random bytes it has just drawn from the random source (one more buffer is
    consumed).  Neither changes the entry under any other key. *)
Theorem blindingFactors_lifecycle
    (E : Env) (C : Config) (w : World)
    (dp : DeactivateEmployeeParams) (up : UpdateSalaryParams) :
  let dkey := storeKey (deact_companyId dp) (deact_employeeAddress dp) in
  let ukey := storeKey (upd_companyId up) (upd_employeeAddress up) in
  let dop :=
    contract_call (registry C) "deactivate_employee"
      [VStr (deact_companyId dp); VStr (deact_employeeAddress dp)] in
  let fresh :=
    map (fun i : nat => getRandomValues E (randomDraws w) i mod 256) (seq 0 32) in
  (forall w', deactivateEmployee E C dp w = (Ok tt, w') ->
     blindingFactors w' = delete dkey (blindingFactors w)) /\
  (ledger_accepts E C dop w ->
     exists w', deactivateEmployee E C dp w = (Ok tt, w')) /\
  (forall e w', deactivateEmployee E C dp w = (Throw e, w') ->
     blindingFactors w' = blindingFactors w) /\
  (forall r w' k, deactivateEmployee E C dp w = (r, w') -> k <> dkey ->
     blindingFactors w' !! k = blindingFactors w !! k) /\
  (forall r w', updateSalary E C up w = (r, w') ->
     blindingFactors w' = <[ukey := fresh]> (blindingFactors w) /\
     randomDraws w' = S (randomDraws w)) /\
  (forall r w' k, updateSalary E C up w = (r, w') -> k <> ukey ->
     blindingFactors w' !! k = blindingFactors w !! k) /\
  length fresh = 32%nat /\ Forall is_byte fresh.
Proof.
  intros dkey ukey dop fresh.
  assert (Hd : forall r w', deactivateEmployee E C dp w = (r, w') ->
            (r = Ok tt /\ blindingFactors w' = delete dkey (blindingFactors w)) \/
            ((exists e, r = Throw e) /\ blindingFactors w' = blindingFactors w)).
  { intros r w'. unfold deactivateEmployee. unfold bind at 1.
    rewrite new_Contract_run.
    destruct (Contract_new E (registry C)) as [[]|ec];
      [|intros [= <- <-]; right; split; [eauto | reflexivity]].
    rewrite build_submit_run. fold dop.
    destruct (server_getAccount E w (publicKey C)) as [[]|e0].
    - destruct (server_sendTransaction E (emit (GetAccount (publicKey C)) w)
                  (signedTx C dop)) as [[]|e1].
      + intros [= <- <-]. left. split; reflexivity.
      + intros [= <- <-]. right. split; [eauto | reflexivity].
    - intros [= <- <-]. right. split; [eauto | reflexivity]. }
  assert (Hu : forall r w', updateSalary E C up w = (r, w') ->
            blindingFactors w' = <[ukey := fresh]> (blindingFactors w) /\
            randomDraws w' = S (randomDraws w)).
  { intros r w'. unfold updateSalary.
    rewrite (bind_run_Ok _ _ _ _ _ (generateBlindingFactor_run E w)).
    rewrite (bind_run_Ok _ _ _ _ _ (generateCommitment_run E _ _ _)).
    unfold bind at 1. unfold blindingFactors_set at 1.
    unfold bind at 1. rewrite new_Contract_run.
    destruct (Contract_new E (registry C)) as [[]|ec];
      [|intros [= _ <-]; split; reflexivity].
    rewrite build_submit_run.
    destruct (server_getAccount E _ (publicKey C)) as [[]|e0].
    - destruct (server_sendTransaction E _ _) as [[]|e1];
        intros [= _ <-]; split; reflexivity.
    - intros [= _ <-]. split; reflexivity. }
  split; [|split; [|split; [|split; [|split; [|split; [|split]]]]]].
  - intros w' H. destruct (Hd _ _ H) as [[_ Hs]|[[e He] _]]; [exact Hs | discriminate He].
  - intros (Hc & Hacc & Hsend). cbn [dop op_contract contract_call] in Hc.
    unfold deactivateEmployee.
    rewrite (bind_run_Ok _ _ w (registry C) w)
      by (rewrite new_Contract_run, Hc; reflexivity).
    rewrite build_submit_run. fold dop. rewrite Hacc, Hsend. eexists. reflexivity.
  - intros e w' H. destruct (Hd _ _ H) as [[He _]|[_ Hs]]; [discriminate He | exact Hs].
  - intros r w' k H Hk. destruct (Hd _ _ H) as [[_ Hs]|[_ Hs]]; rewrite Hs.
    + apply lookup_delete_ne. congruence.
    + reflexivity.
  - exact Hu.
  - intros r w' k H Hk. destruct (Hu _ _ H) as [-> _].
    apply lookup_insert_ne. congruence.
  - reflexivity.
  - subst fresh. apply List.Forall_map, Forall_true. intros i.
    unfold is_byte. apply Z.mod_pos_bound. lia.
Qed.

(** On a store with two employees and a ledger that accepts: deactivating
    one removes her entry and keeps the other's; updating her salary replaces
    her entry with the bytes drawn and keeps the other's. *)
Lemma blindingFactors_lifecycle_witness :
  (exists w',
      deactivateEmployee Fixtures.stubEnv Fixtures.stubConfig
        {| deact_companyId := "ACME"; deact_employeeAddress := "GALICE" |}
        Fixtures.twoEmployees = (Ok tt, w') /\
      blindingFactors w' !! "ACME:GALICE"%string = None /\
      blindingFactors w' !! "ACME:GBOB"%string = Some (replicate 32 2)) /\
  blindingFactors
    (snd (updateSalary Fixtures.stubEnv Fixtures.stubConfig
            {| upd_companyId := "ACME"; upd_employeeAddress := "GALICE";
               upd_newSalary := 600000 |}
            Fixtures.twoEmployees)) !! "ACME:GALICE"%string
  = Some (map Z.of_nat (seq 0 32)) /\
  blindingFactors
    (snd (updateSalary Fixtures.stubEnv Fixtures.stubConfig
            {| upd_companyId := "ACME"; upd_employeeAddress := "GALICE";
               upd_newSalary := 600000 |}
            Fixtures.twoEmployees)) !! "ACME:GBOB"%string
  = Some (replicate 32 2).
Proof.
  destruct (blindingFactors_lifecycle Fixtures.stubEnv Fixtures.stubConfig
              Fixtures.twoEmployees
              {| deact_companyId := "ACME"; deact_employeeAddress := "GALICE" |}
              {| upd_companyId := "ACME"; upd_employeeAddress := "GALICE";
                 upd_newSalary := 600000 |})
    as (Hdel & Hrun & _ & _ & Hupd & _).
  split; [|split].
  - destruct Hrun as [w' Hw']; [repeat split|].
    exists w'. split; [exact Hw'|]. rewrite (Hdel w' Hw').
    split; vm_compute; reflexivity.
  - destruct (Hupd _ _ (surjective_pairing _)) as [-> _]. vm_compute. reflexivity.
  - destruct (Hupd _ _ (surjective_pairing _)) as [-> _]. vm_compute. reflexivity.
Defined.

(** One iteration of the batch loop. *)
Lemma processPayroll_body_run E C params a acc w :
  processPayroll_body E C params a acc w
  = match blindingFactors w !! storeKey (roll_companyId params) a with
    | None =>
        (Ok acc, emit (ConsoleWarn ("Skipping " +:+ a +:+ ": no blinding factor")) w)
    | Some _ =>
        match processPayment E C (payrollPayment params a) w with
        | (Ok r, w1) => (Ok (acc ++ [r]), w1)
        | (Throw e, w1) => (Ok (acc ++ [failedPayment params a e]), w1)
        end
    end.
Proof.
  unfold processPayroll_body, try_catch. unfold bind at 1.
  unfold blindingFactors_get at 1.
  destruct (blindingFactors w !! storeKey (roll_companyId params) a) as [bf|];
    [|reflexivity].
  unfold bind at 1. unfold getEmployeeSalary at 1. unfold ret at 1.
  unfold bind at 1. fold (payrollPayment params a).
  destruct (processPayment E C (payrollPayment params a) w) as [[r|e] w1]; reflexivity.
Qed.

(** The loop never throws, follows [payroll_run], leaves the store alone, and
    records a result for exactly the employees that have a stored blinding
    factor. *)
Lemma processPayroll_loop_run E C params employees : forall acc w,
  exists rs w',
    processPayroll_loop E C params employees acc w = (Ok (acc ++ rs), w') /\
    payroll_run E C params employees w rs w' /\
    blindingFactors w' = blindingFactors w /\
    map res_employeeAddress rs
    = filter (fun a => is_Some (blindingFactors w !! storeKey (roll_companyId params) a))
        employees.
Proof.
  induction employees as [|a rest IH]; intros acc w.
  - exists [], w. cbn [processPayroll_loop]. unfold ret. rewrite app_nil_r.
    repeat split. constructor.
  - cbn [processPayroll_loop]. unfold bind. rewrite processPayroll_body_run.
    destruct (blindingFactors w !! storeKey (roll_companyId params) a) as [bf|] eqn:Hbf.
    + destruct (processPayment E C (payrollPayment params a) w) as [[r|e] w1] eqn:Hpay.
      * destruct (IH (acc ++ [r]) w1) as (rs & w' & Hrun & Hspec & Hstore & Hmap).
        pose proof (keeps_store_processPayment E C _ _ _ _ Hpay) as Hkeep.
        exists (r :: rs), w'. rewrite Hrun, <- app_assoc.
        split; [reflexivity|]. split; [|split].
        -- eapply run_paid; eauto.
        -- congruence.
        -- rewrite filter_cons_True by (rewrite Hbf; eauto).
           cbn [map]. rewrite Hmap, Hkeep.
           destruct (processPayment_Ok _ _ _ _ _ _ Hpay) as (_ & -> & _).
           reflexivity.
      * destruct (IH (acc ++ [failedPayment params a e]) w1)
          as (rs & w' & Hrun & Hspec & Hstore & Hmap).
        pose proof (keeps_store_processPayment E C _ _ _ _ Hpay) as Hkeep.
        exists (failedPayment params a e :: rs), w'. rewrite Hrun, <- app_assoc.
        split; [reflexivity|]. split; [|split].
        -- eapply run_failed; eauto.
        -- congruence.
        -- rewrite filter_cons_True by (rewrite Hbf; eauto).
           cbn [map]. rewrite Hmap, Hkeep. reflexivity.
    + destruct (IH acc (emit (ConsoleWarn ("Skipping " +:+ a +:+ ": no blinding factor")) w))
        as (rs & w' & Hrun & Hspec & Hstore & Hmap).
      exists rs, w'. rewrite Hrun.
      split; [reflexivity|]. split; [|split].
      * eapply run_skip; eauto.
      * exact Hstore.
      * rewrite filter_cons_False by (rewrite Hbf; intros [? [=]]).
        exact Hmap.
Qed.

(** C9.  [processPayroll] never throws.  It returns a list of results built
    employee by employee as [payroll_run] says: an employee with no stored
    blinding factor is skipped and contributes nothing; an employee whose
    [processPayment] throws [err] contributes a result with [success = false]
    and [error = String(err)], and the loop goes on with the remaining
    employees; so the results are, in order, those of exactly the employees
    that have a stored blinding factor. *)
Theorem processPayroll_contains_failures
    (E : Env) (C : Config) (params : ProcessPayrollParams) (w : World) :
  exists results w',
    processPayroll E C params w = (Ok results, w') /\
    payroll_run E C params (payrollEmployees params) w results w' /\
    map res_employeeAddress results
    = filter (fun a => is_Some (blindingFactors w !! storeKey (roll_companyId params) a))
        (payrollEmployees params) /\
    Forall (fun r => success r = false ->
                     exists err, r = failedPayment params (res_employeeAddress r) err)
      results.
Proof.
  destruct (processPayroll_loop_run E C params (payrollEmployees params) [] w)
    as (rs & w' & Hrun & Hspec & _ & Hmap).
  exists rs, w'. split; [|split; [exact Hspec|split; [exact Hmap|]]].
  - unfold processPayroll, payrollEmployees in *.
    destruct (roll_employees params) as [l|]; exact Hrun.
  - clear Hrun Hmap. induction Hspec as [w0|a rest w0 rs0 w1 _ _ IH
                                          |a rest w0 r w1 rs0 w2 _ Hpay _ IH
                                          |a rest w0 err w1 rs0 w2 _ _ _ IH].
    + constructor.
    + exact IH.
    + constructor; [|exact IH]. intros Hfalse.
      destruct (processPayment_Ok _ _ _ _ _ _ Hpay) as (Htrue & _). congruence.
    + constructor; [|exact IH]. intros _. exists err. reflexivity.
Qed.

(** A batch over three employees, the second without a stored blinding
    factor: results for the first and the third only. *)
Lemma processPayroll_contains_failures_witness :
  exists results w',
    processPayroll Fixtures.stubEnv Fixtures.stubConfig
      {| roll_companyId := "ACME"; roll_period := 202601;
         roll_employees := Some ["GALICE"; "GCAROL"; "GBOB"]%string |}
      Fixtures.twoEmployees = (Ok results, w') /\
    map res_employeeAddress results = ["GALICE"; "GBOB"]%string.
Proof.
  destruct (processPayroll_contains_failures Fixtures.stubEnv Fixtures.stubConfig
              {| roll_companyId := "ACME"; roll_period := 202601;
                 roll_employees := Some ["GALICE"; "GCAROL"; "GBOB"]%string |}
              Fixtures.twoEmployees)
    as (results & w' & Hrun & _ & Hmap & _).
  exists results, w'. split; [exact Hrun|]. rewrite Hmap. vm_compute. reflexivity.
Defined.

(** X1.  With the result parsers as they stand, [getEmployee] returns an
    employee without a commitment, so [processPayment] never completes: it
    throws for a missing blinding factor, for a ledger failure, or with the
    [TypeError] of [generateNullifier] reading the undefined commitment. *)
Theorem processPayment_never_succeeds
    (E : Env) (C : Config) (params : ProcessPaymentParams) (w : World) :
  exists e w', processPayment E C params w = (Throw e, w').
Proof.
  destruct (processPayment E C params w) as [[r|e] w'] eqn:Hrun; [|eauto].
  exfalso. unfold processPayment in Hrun.
  apply bind_Ok_inv in Hrun as (stored & w1 & _ & Hrun).
  destruct stored as [bf|]; [|discriminate Hrun].
  apply bind_Ok_inv in Hrun as (emp & w2 & Hemp & Hrun).
  apply bind_Ok_inv in Hrun as (proof & w3 & Hproof & _).
  assert (Hnone : salaryCommitment emp = None).
  { unfold getEmployee in Hemp.
    apply bind_Ok_inv in Hemp as (ct & v1 & _ & Hemp).
    apply bind_Ok_inv in Hemp as (tx & v2 & _ & Hemp).
    apply bind_Ok_inv in Hemp as (res & v3 & _ & Hemp).
    injection Hemp as <- _. reflexivity. }
  unfold generatePaymentProof in Hproof. cbn [gp_commitment] in Hproof.
  rewrite Hnone in Hproof.
  apply bind_Ok_inv in Hproof as (now & v1 & _ & Hproof).
  apply bind_Ok_inv in Hproof as (nf & v2 & Hnf & _).
  unfold generateNullifier in Hnf.
  apply bind_Ok_inv in Hnf as (h & v3 & _ & Hnf).
  apply bind_Ok_inv in Hnf as (cb & v4 & Hcb & _).
  discriminate Hcb.
Qed.

End PayrollProperties.

(** ** The model on concrete inputs *)

Module Examples.
Import Codec Commitment Groth16 Client Properties.

Example bigIntToBytes_258 : bigIntToBytes 258 = replicate 30 0 ++ [1; 2].
Proof. reflexivity. Qed.

Example bytesToBigInt_1_2 : bytesToBigInt [1; 2] = 258.
Proof. reflexivity. Qed.

Example bytes32ToBigInt_short :
  bytes32ToBigInt [1; 2] = Throw (TypeError "Cannot convert undefined to a BigInt").
Proof. reflexivity. Qed.

Example areEqual_prefix : areEqual [1; 2] [1; 2; 3] = false.
Proof. reflexivity. Qed.

Example BigInt_of_string_decimal : BigInt_of_string "202601" = Ok 202601.
Proof. reflexivity. Qed.

Example BigInt_of_string_letters : is_Ok (BigInt_of_string "12ab") = false.
Proof. reflexivity. Qed.

Example BigInt_toString_zero : BigInt_toString 0 = "0"%string.
Proof. reflexivity. Qed.

Example encodeG1Point_1_2 :
  encodeG1Point ("1", "2", "1")%string
  = Ok (replicate 31 0 ++ [1] ++ replicate 31 0 ++ [2]).
Proof. vm_compute. reflexivity. Qed.

(** The third component of the input is not encoded, so it does not survive. *)
Example decode_encode_projective :
  obind (encodeG1Point ("1", "2", "5")%string) decodeG1Point
  = Ok ("1", "2", "1")%string.
Proof. vm_compute. reflexivity. Qed.

Example hashAddress_AB : hashAddress "AB" = "2081"%string.
Proof. vm_compute. reflexivity. Qed.

(** Without the proviso on company identifiers two different
    (company, employee) pairs share one store key. *)
Example storeKey_collision : storeKey "A:B" "C" = storeKey "A" "B:C".
Proof. reflexivity. Qed.

Example mapAuditScope_timeRange :
  mapAuditScope "timeRange" (Some (1999, 5000)) = Ok (TimeRange 1 5).
Proof. reflexivity. Qed.

Example mapAuditScope_employeeList :
  mapAuditScope "employeeList" None = Throw (Error "Unknown scope: employeeList").
Proof. reflexivity. Qed.

Example generateBlindingFactor_first_draw :
  fst (generateBlindingFactor Fixtures.stubEnv Fixtures.emptyWorld)
  = Ok (map Z.of_nat (seq 0 32)).
Proof. vm_compute. reflexivity. Qed.

(** The stub verifier accepts a well-formed proof; a truncated proof never
    reaches it. *)
Example verifyProofLocally_accepts :
  fst (verifyProofLocally Fixtures.stubEnv
         {| proof_a := replicate 64 0; proof_b := replicate 128 0;
            proof_c := replicate 64 0; nullifier := replicate 32 0 |}
         {| pub_commitment := replicate 32 9; pub_nullifier := replicate 32 0;
            pub_recipientHash := "0" |}
         Fixtures.emptyWorld)
  = Ok true.
Proof. vm_compute. reflexivity. Qed.

Example verifyProofLocally_truncated_trace :
  trace (snd (verifyProofLocally Fixtures.stubEnv
                {| proof_a := replicate 63 0; proof_b := replicate 128 0;
                   proof_c := replicate 64 0; nullifier := replicate 32 0 |}
                {| pub_commitment := replicate 32 9; pub_nullifier := replicate 32 0;
                   pub_recipientHash := "0" |}
                Fixtures.emptyWorld))
  = [ConsoleError
       "Verification error: TypeError: Cannot convert undefined to a BigInt"].
Proof. vm_compute. reflexivity. Qed.

(** A batch over three employees, the second unknown to the store: she is
    skipped, and the two others fail on the undefined commitment of the
    placeholder employee record. *)
Example processPayroll_three :
  fst (processPayroll Fixtures.stubEnv Fixtures.stubConfig
         {| roll_companyId := "ACME"; roll_period := 202601;
            roll_employees := Some ["GALICE"; "GCAROL"; "GBOB"]%string |}
         Fixtures.twoEmployees)
  = Ok [ {| success := false; transactionHash := None;
            error := Some "TypeError: Cannot read properties of undefined (reading 'length')"%string;
            res_period := 202601; res_employeeAddress := "GALICE" |};
         {| success := false; transactionHash := None;
            error := Some "TypeError: Cannot read properties of undefined (reading 'length')"%string;
            res_period := 202601; res_employeeAddress := "GBOB" |} ].
Proof. vm_compute. reflexivity. Qed.

End Examples.

(** ** Further properties of the codecs *)

Module CodecMore.
Import Codec Groth16 Properties MoreProperties CodecFacts CodecProperties.

Lemma be_bytes_zero k : be_bytes k 0 = replicate k 0.
Proof.
  induction k as [|k IH]; [reflexivity|].
  cbn [be_bytes]. rewrite Z.shiftr_0_l, IH, Z.land_0_l.
  symmetry. apply replicate_cons_app.
Qed.

Lemma be_value_snoc l b : be_value (l ++ [b]) = be_value l * 256 + b.
Proof. unfold be_value. rewrite fold_left_app. reflexivity. Qed.

(** Encoding the big-endian value of a byte string on [k] bytes pads it with
    zeros on the left, or keeps its last [k] bytes. *)
Lemma be_bytes_be_value k : forall l,
  Forall is_byte l ->
  be_bytes k (be_value l) = replicate (k - length l) 0 ++ drop (length l - k) l.
Proof.
  induction k as [|k IH]; intros l Hl.
  - cbn [be_bytes]. rewrite Nat.sub_0_r, drop_all. reflexivity.
  - destruct l as [|b0 l0] using rev_ind.
    + change (be_value []) with 0. rewrite be_bytes_zero. cbn [length drop].
      rewrite app_nil_r. reflexivity.
    + clear IHl0. apply Forall_app in Hl as [Hl0 Hb]. inversion Hb as [|? ? Hb0 _]; subst.
      cbn [be_bytes]. rewrite be_value_snoc, land_255, shiftr_8.
      unfold is_byte in Hb0.
      rewrite Z.div_add_l, (Z.div_small b0), Z.add_0_r by lia.
      rewrite Z.add_comm, Z.mod_add, Z.mod_small by lia.
      rewrite IH by exact Hl0. rewrite length_app. cbn [length].
      replace (S k - (length l0 + 1))%nat with (k - length l0)%nat by lia.
      replace (length l0 + 1 - S k)%nat with (length l0 - k)%nat by lia.
      rewrite drop_app_le by lia. rewrite app_assoc. reflexivity.
Qed.

(** X3.  Re-encoding a decoded buffer: [bigIntToBytes(bytesToBigInt(bytes))]
    is [bytes] itself for a 32-byte buffer, [bytes] padded on the left with
    zeros for a shorter one, and the last 32 bytes of [bytes] for a longer
    one (the leading bytes are lost). *)
Theorem bigIntToBytes_bytesToBigInt (bytes : list Z) :
  Forall is_byte bytes ->
  bigIntToBytes (bytesToBigInt bytes)
  = replicate (32 - length bytes) 0 ++ drop (length bytes - 32) bytes.
Proof.
  intros Hb. rewrite bigIntToBytes_be. unfold bytesToBigInt.
  rewrite bytesToBigInt_loop_fold by exact Hb.
  apply (be_bytes_be_value 32 bytes Hb).
Qed.

Lemma bigIntToBytes_bytesToBigInt_witness :
  bigIntToBytes (bytesToBigInt [1; 2])
  = replicate (32 - length [1; 2]) 0 ++ drop (length [1; 2] - 32) [1; 2].
Proof.
  apply (bigIntToBytes_bytesToBigInt [1; 2]).
  repeat constructor; unfold is_byte; lia.
Defined.

Lemma bigIntToBytes_bytesToBigInt_32 bytes :
  Forall is_byte bytes -> length bytes = 32%nat ->
  bigIntToBytes (bytesToBigInt bytes) = bytes.
Proof.
  intros Hb Hlen.
  rewrite bigIntToBytes_be. unfold bytesToBigInt.
  rewrite bytesToBigInt_loop_fold by exact Hb.
  pose proof (be_bytes_be_value 32 bytes Hb) as H. unfold be_value in H.
  rewrite H, Hlen. reflexivity.
Qed.

(** One 32-byte word of a buffer, as the decoders slice it. *)
Lemma bytes32ToBigInt_word bytes from :
  (from + 32 <= length bytes)%nat ->
  bytes32ToBigInt (take 32 (drop from bytes))
  = Ok (bytesToBigInt (take 32 (drop from bytes))).
Proof.
  intros H. rewrite bytes32ToBigInt_ok by (rewrite length_take, length_drop; lia).
  rewrite take_take. reflexivity.
Qed.

Lemma bytes32ToBigInt_word_short bytes from :
  (length bytes < from + 32)%nat ->
  exists e, bytes32ToBigInt (take 32 (drop from bytes)) = Throw e.
Proof.
  intros H. apply bytes32ToBigInt_loop_short; [|lia].
  rewrite length_take, length_drop. lia.
Qed.

Lemma word_reencoded bytes from :
  Forall is_byte bytes -> (from + 32 <= length bytes)%nat ->
  scalar_be32 (bytesToBigInt (take 32 (drop from bytes))) = take 32 (drop from bytes).
Proof.
  intros Hb Hlen. rewrite <- bigIntToBytes_scalar_be32.
  apply bigIntToBytes_bytesToBigInt_32.
  - apply Forall_take, Forall_drop, Hb.
  - rewrite length_take, length_drop. lia.
Qed.

Lemma decodeG1Point_ok bytes :
  (64 <= length bytes)%nat ->
  decodeG1Point bytes
  = Ok (G1_point (bytesToBigInt (take 32 (drop 0 bytes)))
                 (bytesToBigInt (take 32 (drop 32 bytes)))).
Proof.
  intros H. unfold decodeG1Point.
  change (slice bytes 0 32) with (take 32 (drop 0 bytes)).
  change (slice bytes 32 64) with (take 32 (drop 32 bytes)).
  rewrite !bytes32ToBigInt_word by lia. reflexivity.
Qed.

Lemma decodeG2Point_ok bytes :
  (128 <= length bytes)%nat ->
  decodeG2Point bytes
  = Ok (G2_point (bytesToBigInt (take 32 (drop 0 bytes)))
                 (bytesToBigInt (take 32 (drop 32 bytes)))
                 (bytesToBigInt (take 32 (drop 64 bytes)))
                 (bytesToBigInt (take 32 (drop 96 bytes)))).
Proof.
  intros H. unfold decodeG2Point.
  change (slice bytes 0 32) with (take 32 (drop 0 bytes)).
  change (slice bytes 32 64) with (take 32 (drop 32 bytes)).
  change (slice bytes 64 96) with (take 32 (drop 64 bytes)).
  change (slice bytes 96 128) with (take 32 (drop 96 bytes)).
  rewrite !bytes32ToBigInt_word by lia. reflexivity.
Qed.

(** X4.  Decoding then encoding a buffer: for a buffer of bytes at least 64
    long, [encodeG1Point(decodeG1Point(bytes))] is its first 64 bytes, and for
    one at least 128 long, [encodeG2Point(decodeG2Point(bytes))] is its first
    128 bytes. *)
Theorem encode_decode_points (bytes : list Z) :
  Forall is_byte bytes ->
  ((64 <= length bytes)%nat ->
   obind (decodeG1Point bytes) encodeG1Point = Ok (take 64 bytes)) /\
  ((128 <= length bytes)%nat ->
   obind (decodeG2Point bytes) encodeG2Point = Ok (take 128 bytes)).
Proof.
  intros Hb. split; intros Hlen.
  - rewrite decodeG1Point_ok by exact Hlen. cbn [obind].
    rewrite encodeG1Point_G1_point, !word_reencoded by (assumption || lia).
    rewrite drop_0. f_equal. exact (take_take_drop bytes 32 32).
  - rewrite decodeG2Point_ok by exact Hlen. cbn [obind].
    rewrite encodeG2Point_G2_point, !word_reencoded by (assumption || lia).
    rewrite drop_0.
    f_equal.
    pose proof (take_take_drop bytes 32 32) as H1.
    pose proof (take_take_drop bytes 64 32) as H2.
    pose proof (take_take_drop bytes 96 32) as H3.
    cbn [Nat.add] in H1, H2, H3.
    rewrite <- H3, <- H2, <- H1, <- !app_assoc. reflexivity.
Qed.

Lemma encode_decode_points_witness :
  ((64 <= length (replicate 130 7))%nat ->
   obind (decodeG1Point (replicate 130 7)) encodeG1Point
   = Ok (take 64 (replicate 130 7))) /\
  ((128 <= length (replicate 130 7))%nat ->
   obind (decodeG2Point (replicate 130 7)) encodeG2Point
   = Ok (take 128 (replicate 130 7))).
Proof.
  apply (encode_decode_points (replicate 130 7)).
  apply Forall_replicate. unfold is_byte. lia.
Defined.

(** X5.  The point decoders check the length of the buffer and nothing else:
    [decodeG1Point] succeeds exactly on buffers of at least 64 bytes and
    [decodeG2Point] exactly on buffers of at least 128 bytes (no range or
    curve check), and both ignore whatever follows those bytes. *)
Theorem decoders_check_length_only (bytes : list Z) :
  (is_Ok (decodeG1Point bytes) = true <-> (64 <= length bytes)%nat) /\
  (is_Ok (decodeG2Point bytes) = true <-> (128 <= length bytes)%nat) /\
  decodeG1Point (take 64 bytes) = decodeG1Point bytes /\
  decodeG2Point (take 128 bytes) = decodeG2Point bytes.
Proof.
  assert (Hword : forall n from, (from + 32 <= n)%nat ->
             take 32 (drop from (take n bytes)) = take 32 (drop from bytes)).
  { intros n from Hn. rewrite skipn_firstn_comm, take_take.
    f_equal. lia. }
  split; [|split; [|split]].
  - split.
    + intros Hok. destruct (le_lt_dec 64 (length bytes)) as [|Hshort]; [assumption|].
      exfalso. unfold decodeG1Point in Hok.
      change (slice bytes 0 32) with (take 32 (drop 0 bytes)) in Hok.
      change (slice bytes 32 64) with (take 32 (drop 32 bytes)) in Hok.
      destruct (bytes32ToBigInt (take 32 (drop 0 bytes))); [|discriminate Hok].
      destruct (bytes32ToBigInt_word_short bytes 32 ltac:(lia)) as [e He].
      cbn [obind] in Hok. rewrite He in Hok. discriminate Hok.
    + intros Hlen. rewrite decodeG1Point_ok by exact Hlen. reflexivity.
  - split.
    + intros Hok. destruct (le_lt_dec 128 (length bytes)) as [|Hshort]; [assumption|].
      exfalso. unfold decodeG2Point in Hok.
      change (slice bytes 0 32) with (take 32 (drop 0 bytes)) in Hok.
      change (slice bytes 32 64) with (take 32 (drop 32 bytes)) in Hok.
      change (slice bytes 64 96) with (take 32 (drop 64 bytes)) in Hok.
      change (slice bytes 96 128) with (take 32 (drop 96 bytes)) in Hok.
      destruct (bytes32ToBigInt (take 32 (drop 0 bytes))); [|discriminate Hok].
      destruct (bytes32ToBigInt (take 32 (drop 32 bytes))); [|discriminate Hok].
      destruct (bytes32ToBigInt (take 32 (drop 64 bytes))); [|discriminate Hok].
      destruct (bytes32ToBigInt_word_short bytes 96 ltac:(lia)) as [e He].
      cbn [obind] in Hok. rewrite He in Hok. discriminate Hok.
    + intros Hlen. rewrite decodeG2Point_ok by exact Hlen. reflexivity.
  - unfold decodeG1Point, slice. cbn [Nat.sub].
    rewrite !(Hword 64%nat) by lia. reflexivity.
  - unfold decodeG2Point, slice. cbn [Nat.sub].
    rewrite !(Hword 128%nat) by lia. reflexivity.
Qed.

Lemma encodeG1Point_parsed p0 p1 z x y :
  BigInt_of_string p0 = Ok x -> BigInt_of_string p1 = Ok y ->
  encodeG1Point (p0, p1, z) = Ok (scalar_be32 x ++ scalar_be32 y).
Proof.
  intros Hx Hy. rewrite <- (encodeG1Point_G1_point x y).
  unfold encodeG1Point, G1_point.
  rewrite Hx, Hy, !BigInt_of_string_toString. reflexivity.
Qed.

Lemma encodeG2Point_parsed p00 p01 p10 p11 z x0 x1 y0 y1 :
  BigInt_of_string p00 = Ok x0 -> BigInt_of_string p01 = Ok x1 ->
  BigInt_of_string p10 = Ok y0 -> BigInt_of_string p11 = Ok y1 ->
  encodeG2Point ((p00, p01), (p10, p11), z)
  = Ok (scalar_be32 x0 ++ scalar_be32 x1 ++ scalar_be32 y0 ++ scalar_be32 y1).
Proof.
  intros H0 H1 H2 H3. rewrite <- (encodeG2Point_G2_point x0 x1 y0 y1).
  unfold encodeG2Point, G2_point.
  rewrite H0, H1, H2, H3, !BigInt_of_string_toString. reflexivity.
Qed.


Lemma encodeG1Point_length p bytes :
  encodeG1Point p = Ok bytes -> length bytes = 64%nat.
Proof.
  destruct p as [[p0 p1] z]. intros H.
  destruct (BigInt_of_string p0) as [x|] eqn:Hx;
    [|unfold encodeG1Point in H; rewrite Hx in H; discriminate H].
  destruct (BigInt_of_string p1) as [y|] eqn:Hy;
    [|unfold encodeG1Point in H; rewrite Hx, Hy in H; discriminate H].
  rewrite (encodeG1Point_parsed _ _ _ _ _ Hx Hy) in H.
  assert (Hbytes : scalar_be32 x ++ scalar_be32 y = bytes) by congruence.
  rewrite <- Hbytes, length_app, !scalar_be32_length. reflexivity.
Qed.

Lemma encodeG2Point_length p bytes :
  encodeG2Point p = Ok bytes -> length bytes = 128%nat.
Proof.
  destruct p as [[[p00 p01] [p10 p11]] z]. intros H.
  destruct (BigInt_of_string p00) as [x0|] eqn:H0;
    [|unfold encodeG2Point in H; rewrite H0 in H; discriminate H].
  destruct (BigInt_of_string p01) as [x1|] eqn:H1;
    [|unfold encodeG2Point in H; rewrite H0, H1 in H; discriminate H].
  destruct (BigInt_of_string p10) as [y0|] eqn:H2;
    [|unfold encodeG2Point in H; rewrite H0, H1, H2 in H; discriminate H].
  destruct (BigInt_of_string p11) as [y1|] eqn:H3;
    [|unfold encodeG2Point in H; rewrite H0, H1, H2, H3 in H; discriminate H].
  rewrite (encodeG2Point_parsed _ _ _ _ _ _ _ _ _ H0 H1 H2 H3) in H.
  assert (Hbytes : scalar_be32 x0 ++ scalar_be32 x1 ++ scalar_be32 y0 ++ scalar_be32 y1
                   = bytes) by congruence.
  rewrite <- Hbytes, !length_app, !scalar_be32_length. reflexivity.
Qed.


Lemma bytesToBigInt_be_value bytes :
  Forall is_byte bytes -> bytesToBigInt bytes = be_value bytes.
Proof. apply bytesToBigInt_loop_fold. Qed.

(** X7.  [bytesToFieldElement] prints the big-endian value of the buffer:
    parsing the string gives that value back, re-encoding it on 32 bytes gives
    the buffer back when it is 32 bytes long, and leading zero bytes do not
    show in the string. *)
Theorem bytesToFieldElement_roundtrip (bytes : list Z) :
  Forall is_byte bytes ->
  BigInt_of_string (bytesToFieldElement bytes) = Ok (be_value bytes) /\
  bytesToFieldElement (0 :: bytes) = bytesToFieldElement bytes /\
  (length bytes = 32%nat ->
   obind (BigInt_of_string (bytesToFieldElement bytes))
         (fun v => Ok (bigIntToBytes v)) = Ok bytes).
Proof.
  intros Hb. unfold bytesToFieldElement. rewrite BigInt_of_string_toString.
  split; [|split].
  - rewrite bytesToBigInt_be_value by exact Hb. reflexivity.
  - reflexivity.
  - intros Hlen. cbn [obind]. rewrite bigIntToBytes_bytesToBigInt_32 by assumption.
    reflexivity.
Qed.

Lemma bytesToFieldElement_roundtrip_witness :
  BigInt_of_string (bytesToFieldElement (replicate 32 9)) = Ok (be_value (replicate 32 9)) /\
  bytesToFieldElement (0 :: replicate 32 9) = bytesToFieldElement (replicate 32 9) /\
  (length (replicate 32 9) = 32%nat ->
   obind (BigInt_of_string (bytesToFieldElement (replicate 32 9)))
         (fun v => Ok (bigIntToBytes v)) = Ok (replicate 32 9)).
Proof.
  apply (bytesToFieldElement_roundtrip (replicate 32 9)).
  apply Forall_replicate. unfold is_byte. lia.
Defined.

Lemma hashAddress_loop_app h prefix suffix :
  hashAddress_loop h (prefix +:+ suffix)
  = hashAddress_loop (hashAddress_loop h prefix) suffix.
Proof.
  revert h. induction prefix as [|c prefix IH]; intros h; [reflexivity|].
  cbn [String.append hashAddress_loop]. apply IH.
Qed.

Lemma hashAddress_loop_range h address :
  0 <= h < 2 ^ 254 -> 0 <= hashAddress_loop h address < 2 ^ 254.
Proof.
  revert h. induction address as [|c rest IH]; intros h Hh; [exact Hh|].
  cbn [hashAddress_loop]. apply IH. apply Z.mod_pos_bound. lia.
Qed.

(** X8.  [hashAddress] prints a number in [[0, 2^254)], and it is not
    collision-free: replacing ["Aa"] by ["BB"] anywhere in an address leaves
    the hash unchanged. *)
Theorem hashAddress_range_and_collisions (prefix suffix : string) :
  (exists h, BigInt_of_string (hashAddress prefix) = Ok h /\ 0 <= h < 2 ^ 254) /\
  hashAddress (prefix +:+ "Aa" +:+ suffix) = hashAddress (prefix +:+ "BB" +:+ suffix).
Proof.
  split.
  - exists (hashAddress_loop 0 prefix). split.
    + apply BigInt_of_string_toString.
    + apply hashAddress_loop_range. lia.
  - unfold hashAddress. f_equal. rewrite !hashAddress_loop_app. f_equal.
    generalize (hashAddress_loop 0 prefix). intros h.
    cbn [hashAddress_loop]. change (Z.of_nat (nat_of_ascii "A")) with 65.
    change (Z.of_nat (nat_of_ascii "a")) with 97.
    change (Z.of_nat (nat_of_ascii "B")) with 66.
    rewrite (Z.add_mod (((h * 31 + 65) mod 2 ^ 254) * 31) 97) by lia.
    rewrite (Z.add_mod (((h * 31 + 66) mod 2 ^ 254) * 31) 66) by lia.
    rewrite !Z.mul_mod_idemp_l by lia.
    rewrite <- !Z.add_mod by lia.
    f_equal. ring.
Qed.

End CodecMore.

(** ** Further properties of proof generation and verification *)

Module ProofMore.
Import Codec Commitment Groth16 VerificationKey Properties MoreProperties.
Import CodecFacts CodecProperties RuntimeFacts CommitmentProperties CodecMore.

(** The encoded proof [generatePaymentProof] builds from the prover's answer. *)
Lemma generatePaymentProof_run E params c w :
  gp_commitment params = Some c ->
  let w0 := set_poseidonInstance (Some (poseidon_at E w)) w in
  let nf :=
    bigIntToBytes
      (poseidon_at E w
         [bytesToBigInt c; Date_now E w; bytesToBigInt (gp_blindingFactor params)]) in
  let inputs := circuitInputsOf params c nf in
  generatePaymentProof E params w
  = (match
       obind (groth16_fullProve E w0 inputs)
         (fun sp =>
            do! a := encodeG1Point (pi_a sp) in
            do! b := encodeG2Point (pi_b sp) in
            do! c' := encodeG1Point (pi_c sp) in
            Ok {| proof_a := a; proof_b := b; proof_c := c'; nullifier := nf |})
     with
     | Ok p => Ok p
     | Throw e => Throw (Error ("Proof generation failed: " +:+ String_of_error e))
     end,
     emit (FullProve inputs CIRCUIT_WASM_PATH CIRCUIT_ZKEY_PATH) w0).
Proof.
  intros Hc w0 nf inputs. unfold generatePaymentProof. rewrite Hc.
  unfold bind at 1. unfold Date_now_call at 1.
  unfold bind at 1. rewrite generateNullifier_run. fold w0 nf.
  unfold bind at 1. unfold lift at 1. cbn [defined].
  fold (circuitInputsOf params c nf). fold inputs.
  unfold try_catch, bind, call_out, lift, ret, throw.
  destruct (groth16_fullProve E w0 inputs) as [sp|e]; [|reflexivity].
  cbn [obind].
  destruct (encodeG1Point (pi_a sp)) as [a|e]; [|reflexivity]. cbn [obind].
  destruct (encodeG2Point (pi_b sp)) as [b|e]; [|reflexivity]. cbn [obind].
  destruct (encodeG1Point (pi_c sp)) as [c'|e]; reflexivity.
Qed.

Lemma generatePaymentProof_undefined E params w :
  gp_commitment params = None ->
  generatePaymentProof E params w
  = (Throw (TypeError "Cannot read properties of undefined (reading 'length')"),
     set_poseidonInstance (Some (poseidon_at E w)) w).
Proof.
  intros Hc. unfold generatePaymentProof. rewrite Hc.
  unfold bind at 1. unfold Date_now_call at 1.
  apply bind_run_Throw. unfold generateNullifier.
  rewrite (bind_run_Ok _ _ _ _ _ (getPoseidon_run E w)). reflexivity.
Qed.

(** What a successful run tells about the prover's answer. *)
Lemma generatePaymentProof_Ok_inv E params w p :
  fst (generatePaymentProof E params w) = Ok p ->
  exists c w0 inputs sp,
    gp_commitment params = Some c /\
    groth16_fullProve E w0 inputs = Ok sp /\
    encodeG1Point (pi_a sp) = Ok (proof_a p) /\
    encodeG2Point (pi_b sp) = Ok (proof_b p) /\
    encodeG1Point (pi_c sp) = Ok (proof_c p) /\
    nullifier p
    = bigIntToBytes
        (poseidon_at E w
           [bytesToBigInt c; Date_now E w; bytesToBigInt (gp_blindingFactor params)]).
Proof.
  destruct (gp_commitment params) as [c|] eqn:Hc.
  - rewrite (generatePaymentProof_run E params c w Hc). cbn [fst]. intros H.
    match type of H with
    | context [groth16_fullProve E ?w0 ?inputs] =>
        exists c, w0, inputs; destruct (groth16_fullProve E w0 inputs) as [sp|e] eqn:Hsp
    end; [|discriminate H].
    exists sp. cbn [obind] in H.
    destruct (encodeG1Point (pi_a sp)) as [a|e]; [|discriminate H]. cbn [obind] in H.
    destruct (encodeG2Point (pi_b sp)) as [b|e]; [|discriminate H]. cbn [obind] in H.
    destruct (encodeG1Point (pi_c sp)) as [c'|e]; [|discriminate H]. cbn [obind] in H.
    assert (Hp : p = {| proof_a := a; proof_b := b; proof_c := c';
                        nullifier := bigIntToBytes
                          (poseidon_at E w
                             [bytesToBigInt c; Date_now E w;
                              bytesToBigInt (gp_blindingFactor params)]) |})
      by congruence.
    rewrite Hp. repeat split; reflexivity.
  - rewrite (generatePaymentProof_undefined E params w Hc). discriminate.
Qed.

(** X9.  A proof [generatePaymentProof] returns has the layout the ledger
    expects: [a] is 64 bytes, [b] 128 bytes, [c] 64 bytes and the nullifier
    32 bytes, whatever strings the prover answered with. *)
Theorem generatePaymentProof_layout
    (E : Env) (params : GenerateProofParams) (w : World) (p : Groth16Proof) :
  fst (generatePaymentProof E params w) = Ok p ->
  length (proof_a p) = 64%nat /\ length (proof_b p) = 128%nat /\
  length (proof_c p) = 64%nat /\ length (nullifier p) = 32%nat.
Proof.
  intros H.
  destruct (generatePaymentProof_Ok_inv E params w p H)
    as (c & w0 & inputs & sp & _ & _ & Ha & Hb & Hc & Hn).
  rewrite Hn, bigIntToBytes_length.
  rewrite (encodeG1Point_length _ _ Ha), (encodeG2Point_length _ _ Hb),
    (encodeG1Point_length _ _ Hc).
  repeat split.
Qed.

Lemma generatePaymentProof_layout_witness :
  exists p,
    fst (generatePaymentProof Fixtures.stubEnv Fixtures.sampleProofParams
           Fixtures.emptyWorld) = Ok p /\
    length (proof_a p) = 64%nat /\ length (proof_b p) = 128%nat /\
    length (proof_c p) = 64%nat /\ length (nullifier p) = 32%nat.
Proof.
  let r := eval vm_compute in
      (fst (generatePaymentProof Fixtures.stubEnv Fixtures.sampleProofParams
              Fixtures.emptyWorld)) in
  lazymatch r with
  | Ok ?p =>
      assert (H : fst (generatePaymentProof Fixtures.stubEnv
                         Fixtures.sampleProofParams Fixtures.emptyWorld) = Ok p)
        by (vm_compute; reflexivity);
      exists p
  end.
  split; [exact H|].
  exact (generatePaymentProof_layout Fixtures.stubEnv Fixtures.sampleProofParams
           Fixtures.emptyWorld _ H).
Defined.


Lemma decode_encoded_G1 p bytes :
  canonical_G1 p -> encodeG1Point p = Ok bytes -> decodeG1Point bytes = Ok p.
Proof.
  intros (x & y & Hx & Hy & ->) H. rewrite encodeG1Point_G1_point in H.
  assert (Hb : scalar_be32 x ++ scalar_be32 y = bytes) by congruence.
  rewrite <- Hb. apply decodeG1Point_be32; assumption.
Qed.

Lemma decode_encoded_G2 p bytes :
  canonical_G2 p -> encodeG2Point p = Ok bytes -> decodeG2Point bytes = Ok p.
Proof.
  intros (x0 & x1 & y0 & y1 & H0 & H1 & H2 & H3 & ->) H.
  rewrite encodeG2Point_G2_point in H.
  assert (Hb : scalar_be32 x0 ++ scalar_be32 x1 ++ scalar_be32 y0 ++ scalar_be32 y1
               = bytes) by congruence.
  rewrite <- Hb. apply decodeG2Point_be32; assumption.
Qed.

(** X11.  Proving then verifying: when the prover answers with points in
    canonical form, the proof [generatePaymentProof] returns is decoded by
    [verifyProofLocally] to exactly the points the prover answered, and the
    verifier is asked about them with the signals of the public inputs. *)
Theorem verify_sees_the_generated_proof
    (E : Env) (params : GenerateProofParams) (w : World) (p : Groth16Proof) :
  (forall w0 inputs sp, groth16_fullProve E w0 inputs = Ok sp -> canonical_proof sp) ->
  fst (generatePaymentProof E params w) = Ok p ->
  exists w0 inputs sp,
    groth16_fullProve E w0 inputs = Ok sp /\
    forall publicInputs w2,
      verifyProofLocally_try E p publicInputs w2
      = (groth16_verify E w2 vkeyPath (publicSignals publicInputs) sp,
         emit (Groth16Verify vkeyPath (publicSignals publicInputs) sp) w2).
Proof.
  intros Hcanon H.
  destruct (generatePaymentProof_Ok_inv E params w p H)
    as (c & w0 & inputs & sp & _ & Hsp & Ha & Hb & Hc & _).
  exists w0, inputs, sp. split; [exact Hsp|]. intros publicInputs w2.
  destruct (Hcanon _ _ _ Hsp) as (Ca & Cb & Cc).
  unfold verifyProofLocally_try, bind, lift.
  rewrite (decode_encoded_G1 _ _ Ca Ha), (decode_encoded_G2 _ _ Cb Hb),
    (decode_encoded_G1 _ _ Cc Hc).
  destruct sp. reflexivity.
Qed.

Lemma verify_sees_the_generated_proof_witness :
  exists p w0 inputs sp,
    fst (generatePaymentProof Fixtures.stubEnv Fixtures.sampleProofParams
           Fixtures.emptyWorld) = Ok p /\
    groth16_fullProve Fixtures.stubEnv w0 inputs = Ok sp /\
    forall publicInputs w2,
      verifyProofLocally_try Fixtures.stubEnv p publicInputs w2
      = (groth16_verify Fixtures.stubEnv w2 vkeyPath (publicSignals publicInputs) sp,
         emit (Groth16Verify vkeyPath (publicSignals publicInputs) sp) w2).
Proof.
  let r := eval vm_compute in
      (fst (generatePaymentProof Fixtures.stubEnv Fixtures.sampleProofParams
              Fixtures.emptyWorld)) in
  lazymatch r with
  | Ok ?p =>
      assert (H : fst (generatePaymentProof Fixtures.stubEnv
                         Fixtures.sampleProofParams Fixtures.emptyWorld) = Ok p)
        by (vm_compute; reflexivity);
      exists p
  end.
  assert (Hcanon : forall w0 inputs sp,
             groth16_fullProve Fixtures.stubEnv w0 inputs = Ok sp -> canonical_proof sp).
  { intros w0 inputs sp [= <-]. split; [|split].
    - exists 1, 2. unfold coordinate. repeat split; lia.
    - exists 3, 4, 5, 6. unfold coordinate. repeat split; lia.
    - exists 7, 8. unfold coordinate. repeat split; lia. }
  destruct (verify_sees_the_generated_proof Fixtures.stubEnv
              Fixtures.sampleProofParams Fixtures.emptyWorld _ Hcanon H)
    as (w0 & inputs & sp & Hsp & Hverify).
  exists w0, inputs, sp. split; [exact H|]. split; [exact Hsp | exact Hverify].
Defined.

Lemma decodeG1Point_throws bytes :
  (length bytes < 64)%nat -> exists e, decodeG1Point bytes = Throw e.
Proof.
  intros Hlen. unfold decodeG1Point.
  change (slice bytes 0 32) with (take 32 (drop 0 bytes)).
  change (slice bytes 32 64) with (take 32 (drop 32 bytes)).
  destruct (bytes32ToBigInt (take 32 (drop 0 bytes))) as [x|e]; [|eauto].
  destruct (bytes32ToBigInt_word_short bytes 32 ltac:(lia)) as [e He].
  cbn [obind]. rewrite He. eauto.
Qed.

Lemma decodeG2Point_throws bytes :
  (length bytes < 128)%nat -> exists e, decodeG2Point bytes = Throw e.
Proof.
  intros Hlen. unfold decodeG2Point.
  change (slice bytes 0 32) with (take 32 (drop 0 bytes)).
  change (slice bytes 32 64) with (take 32 (drop 32 bytes)).
  change (slice bytes 64 96) with (take 32 (drop 64 bytes)).
  change (slice bytes 96 128) with (take 32 (drop 96 bytes)).
  destruct (bytes32ToBigInt (take 32 (drop 0 bytes))) as [x0|e]; [|eauto].
  destruct (bytes32ToBigInt (take 32 (drop 32 bytes))) as [x1|e]; [|eauto].
  destruct (bytes32ToBigInt (take 32 (drop 64 bytes))) as [y0|e]; [|eauto].
  destruct (bytes32ToBigInt_word_short bytes 96 ltac:(lia)) as [e He].
  cbn [obind]. rewrite He. eauto.
Qed.

(** X12.  What [verifyProofLocally] does with the verifier.  If a component
    of the proof is too short ([a] or [c] under 64 bytes, [b] under 128) the
    verifier is not consulted: the answer is [false] and the only effect is
    one console error.  Otherwise the verifier is consulted exactly once, on
    the decoded points and the signals of the public inputs, and the answer
    is the verifier's, or [false] if the verifier throws. *)
Theorem verifyProofLocally_consults_verifier
    (E : Env) (proof : Groth16Proof) (publicInputs : PublicInputs) (w : World) :
  (((length (proof_a proof) < 64)%nat \/ (length (proof_b proof) < 128)%nat \/
    (length (proof_c proof) < 64)%nat) ->
   exists msg,
     verifyProofLocally E proof publicInputs w = (Ok false, emit (ConsoleError msg) w)) /\
  (((64 <= length (proof_a proof))%nat /\ (128 <= length (proof_b proof))%nat /\
    (64 <= length (proof_c proof))%nat) ->
   exists sp,
     decodeG1Point (proof_a proof) = Ok (pi_a sp) /\
     decodeG2Point (proof_b proof) = Ok (pi_b sp) /\
     decodeG1Point (proof_c proof) = Ok (pi_c sp) /\
     let asked := emit (Groth16Verify vkeyPath (publicSignals publicInputs) sp) w in
     verifyProofLocally E proof publicInputs w
     = match groth16_verify E w vkeyPath (publicSignals publicInputs) sp with
       | Ok verdict => (Ok verdict, asked)
       | Throw e =>
           (Ok false,
            emit (ConsoleError ("Verification error: " +:+ String_of_error e)) asked)
       end).
Proof.
  split.
  - intros Hshort.
    assert (Hbody : exists e,
               verifyProofLocally_try E proof publicInputs w = (Throw e, w)).
    { unfold verifyProofLocally_try, bind, lift.
      destruct (decodeG1Point (proof_a proof)) as [a|e] eqn:Ha; [|eauto].
      destruct (decodeG2Point (proof_b proof)) as [b|e] eqn:Hb; [|eauto].
      destruct (decodeG1Point (proof_c proof)) as [c|e] eqn:Hc; [|eauto].
      exfalso. destruct Hshort as [H|[H|H]].
      - destruct (decodeG1Point_throws _ H) as [e He]. congruence.
      - destruct (decodeG2Point_throws _ H) as [e He]. congruence.
      - destruct (decodeG1Point_throws _ H) as [e He]. congruence. }
    destruct Hbody as [e He]. eexists. unfold verifyProofLocally.
    rewrite (try_catch_run_Throw _ _ _ _ _ He). reflexivity.
  - intros (Ha & Hb & Hc).
    exists {| pi_a := G1_point (bytesToBigInt (take 32 (drop 0 (proof_a proof))))
                               (bytesToBigInt (take 32 (drop 32 (proof_a proof))));
              pi_b := G2_point (bytesToBigInt (take 32 (drop 0 (proof_b proof))))
                               (bytesToBigInt (take 32 (drop 32 (proof_b proof))))
                               (bytesToBigInt (take 32 (drop 64 (proof_b proof))))
                               (bytesToBigInt (take 32 (drop 96 (proof_b proof))));
              pi_c := G1_point (bytesToBigInt (take 32 (drop 0 (proof_c proof))))
                               (bytesToBigInt (take 32 (drop 32 (proof_c proof)))) |}.
    cbn [pi_a pi_b pi_c].
    split; [apply decodeG1Point_ok, Ha|]. split; [apply decodeG2Point_ok, Hb|].
    split; [apply decodeG1Point_ok, Hc|].
    unfold verifyProofLocally, try_catch, verifyProofLocally_try, bind, lift.
    rewrite (decodeG1Point_ok _ Ha), (decodeG2Point_ok _ Hb), (decodeG1Point_ok _ Hc).
    unfold call_out. fold (publicSignals publicInputs).
    destruct (groth16_verify E w vkeyPath (publicSignals publicInputs) _); reflexivity.
Qed.

Lemma map_outcome_Ok {A B} (f : A -> outcome B) l ys :
  map_outcome f l = Ok ys -> Forall2 (fun x y => f x = Ok y) l ys.
Proof.
  revert ys. induction l as [|x l IH]; intros ys H; cbn [map_outcome] in H.
  - assert (ys = []) by congruence. subst. constructor.
  - destruct (f x) as [y|e] eqn:Hy; [|discriminate H]. cbn [obind] in H.
    destruct (map_outcome f l) as [ys'|e] eqn:Hys; [|discriminate H]. cbn [obind] in H.
    assert (ys = y :: ys') by congruence. subst. constructor; [exact Hy | apply IH; reflexivity].
Qed.

(** X13.  The key material [exportVerificationKey] returns has the encoded
    layout: [alpha] is 64 bytes, [beta], [gamma] and [delta] are 128 bytes
    each, and [ic] holds one 64-byte encoding for each point of the key's
    [IC], in order; exporting changes nothing in the world. *)
Theorem exportVerificationKey_layout
    (import_vkey : World -> outcome VerificationKeyJson)
    (w : World) (m : VerificationKeyMaterial) (w' : World) :
  exportVerificationKey import_vkey w = (Ok m, w') ->
  w' = w /\
  length (alpha m) = 64%nat /\ length (beta m) = 128%nat /\
  length (gamma m) = 128%nat /\ length (delta m) = 128%nat /\
  exists vkey,
    import_vkey w = Ok vkey /\
    Forall2 (fun point bytes => encodeG1Point point = Ok bytes /\ length bytes = 64%nat)
      (IC vkey) (ic m).
Proof.
  unfold exportVerificationKey. intros H.
  apply bind_Ok_inv in H as (vkey & w1 & Hv & H). injection Hv as Hv <-.
  apply bind_Ok_inv in H as (a & w2 & Ha & H). injection Ha as Ha <-.
  apply bind_Ok_inv in H as (b & w3 & Hb & H). injection Hb as Hb <-.
  apply bind_Ok_inv in H as (g & w4 & Hg & H). injection Hg as Hg <-.
  apply bind_Ok_inv in H as (d & w5 & Hd & H). injection Hd as Hd <-.
  apply bind_Ok_inv in H as (points & w6 & Hp & H). injection Hp as Hp <-.
  injection H as <- <-. cbn [alpha beta gamma delta ic].
  split; [reflexivity|].
  split; [exact (encodeG1Point_length _ _ Ha)|].
  split; [exact (encodeG2Point_length _ _ Hb)|].
  split; [exact (encodeG2Point_length _ _ Hg)|].
  split; [exact (encodeG2Point_length _ _ Hd)|].
  exists vkey. split; [exact Hv|].
  apply map_outcome_Ok in Hp.
  eapply Forall2_impl; [exact Hp|]. cbn beta. intros point bytes He.
  split; [exact He | exact (encodeG1Point_length _ _ He)].
Qed.

Lemma exportVerificationKey_layout_witness :
  exists m,
    exportVerificationKey (fun _ => Ok MoreFixtures.sampleVkey) Fixtures.emptyWorld
    = (Ok m, Fixtures.emptyWorld) /\
    length (alpha m) = 64%nat /\ length (beta m) = 128%nat /\
    length (gamma m) = 128%nat /\ length (delta m) = 128%nat /\
    length (ic m) = 3%nat.
Proof.
  let r := eval vm_compute in
      (fst (exportVerificationKey (fun _ => Ok MoreFixtures.sampleVkey)
              Fixtures.emptyWorld)) in
  lazymatch r with
  | Ok ?m =>
      assert (H : exportVerificationKey (fun _ => Ok MoreFixtures.sampleVkey)
                    Fixtures.emptyWorld = (Ok m, Fixtures.emptyWorld))
        by (vm_compute; reflexivity);
      exists m
  end.
  split; [exact H|].
  destruct (exportVerificationKey_layout _ _ _ _ H)
    as (_ & Ha & Hb & Hg & Hd & vkey & Hv & Hic).
  repeat (split; [assumption|]).
  apply Forall2_length in Hic. rewrite <- Hic.
  assert (vkey = MoreFixtures.sampleVkey) by congruence. subst vkey. reflexivity.
Defined.

(** X14.  Commitments and nullifiers are always 32 bytes, each in [[0, 256)];
    and a commitment sees the blinding factor only through its big-endian
    value, so a buffer and the same buffer with a leading zero byte commit
    (and verify) alike. *)
Theorem commitment_is_32_bytes
    (E : Env) (salary period : Z) (blindingFactor commitment : list Z) (w : World) :
  (exists g, fst (generateCommitment E salary blindingFactor w) = Ok g /\
             length g = 32%nat /\ Forall is_byte g) /\
  (exists n, fst (generateNullifier E (Some commitment) period blindingFactor w) = Ok n /\
             length n = 32%nat /\ Forall is_byte n) /\
  generateCommitment E salary (0 :: blindingFactor) w
  = generateCommitment E salary blindingFactor w /\
  verifyCommitment E commitment salary (0 :: blindingFactor) w
  = verifyCommitment E commitment salary blindingFactor w.
Proof.
  split; [|split; [|split]].
  - rewrite generateCommitment_run. eexists. split; [reflexivity|].
    rewrite bigIntToBytes_be. split; [apply be_bytes_length | apply be_bytes_Forall].
  - rewrite generateNullifier_run. eexists. split; [reflexivity|].
    rewrite bigIntToBytes_be. split; [apply be_bytes_length | apply be_bytes_Forall].
  - rewrite !generateCommitment_run. reflexivity.
  - rewrite !verifyCommitment_run. reflexivity.
Qed.

End ProofMore.

(** ** Further properties of the client *)

Module ClientMoreProperties.
Import Codec Commitment Groth16 Client ClientQueries VerificationKey.
Import Properties MoreProperties.
Import CodecFacts RuntimeFacts CommitmentProperties ClientFacts PayrollProperties ProofMore.

(** *** Outside calls compose *)

Lemma emits_only_silent {A} P (m : M A) :
  (forall w r w', m w = (r, w') -> trace w' = trace w) -> emits_only P m.
Proof.
  intros H w r w' Hrun. exists []. rewrite app_nil_r. split; [eauto | constructor].
Qed.

Lemma emits_only_ret {A} P (a : A) : emits_only P (ret a).
Proof. apply emits_only_silent. intros w r w' [= _ <-]. reflexivity. Qed.

Lemma emits_only_throw {A} P e : emits_only P (@throw A e).
Proof. apply emits_only_silent. intros w r w' [= _ <-]. reflexivity. Qed.

Lemma emits_only_lift {A} P (o : outcome A) : emits_only P (lift o).
Proof. apply emits_only_silent. intros w r w' [= _ <-]. reflexivity. Qed.

Lemma emits_only_log (P : Event -> Prop) e : P e -> emits_only P (log e).
Proof.
  intros HP w r w' [= _ <-]. exists [e]. split; [reflexivity | repeat constructor; exact HP].
Qed.

Lemma emits_only_call_out {A} (P : Event -> Prop) (answer : World -> outcome A) e :
  P e -> emits_only P (call_out answer e).
Proof.
  intros HP w r w' [= _ <-]. exists [e]. split; [reflexivity | repeat constructor; exact HP].
Qed.

Lemma emits_only_bind' {A B} P (m : M A) (k : A -> M B) :
  emits_only P m ->
  (forall w a w1, m w = (Ok a, w1) -> emits_only P (k a)) ->
  emits_only P (bind m k).
Proof.
  intros Hm Hk w r w'. unfold bind.
  destruct (m w) as [[a|e] w1] eqn:Hmw; intros H.
  - destruct (Hm _ _ _ Hmw) as (ev1 & Ht1 & HP1).
    destruct (Hk _ _ _ Hmw _ _ _ H) as (ev2 & Ht2 & HP2).
    exists (ev1 ++ ev2). rewrite Ht2, Ht1, app_assoc.
    split; [reflexivity | apply Forall_app; split; assumption].
  - injection H as <- <-. exact (Hm _ _ _ Hmw).
Qed.

Lemma emits_only_bind {A B} P (m : M A) (k : A -> M B) :
  emits_only P m -> (forall a, emits_only P (k a)) -> emits_only P (bind m k).
Proof. intros Hm Hk. apply emits_only_bind'; [exact Hm | intros; apply Hk]. Qed.

Lemma emits_only_weaken {A} (P Q : Event -> Prop) (m : M A) :
  (forall e, P e -> Q e) -> emits_only P m -> emits_only Q m.
Proof.
  intros HPQ Hm w r w' H. destruct (Hm _ _ _ H) as (events & Ht & HP).
  exists events. split; [exact Ht|]. eapply Forall_impl; eauto.
Qed.

Lemma emits_only_new_Contract E P address : emits_only P (new_Contract E address).
Proof. apply emits_only_lift. Qed.

Lemma emits_only_buildTransaction E C operation :
  emits_only is_read (buildTransaction E C operation).
Proof.
  apply emits_only_bind; [|intros ?; apply emits_only_ret].
  apply emits_only_call_out. exact I.
Qed.

(** A simulated call to a contract: only reads of the ledger. *)
Lemma emits_only_simulate E C address method args {A} (parse : unit -> A) :
  emits_only is_read
    (let* contract := new_Contract E address in
     let* tx := buildTransaction E C (contract_call contract method args) in
     let* result :=
       call_out (fun w => server_simulateTransaction E w tx) (SimulateTransaction tx) in
     ret (parse result)).
Proof.
  apply emits_only_bind; [apply emits_only_new_Contract|]. intros contract.
  apply emits_only_bind; [apply emits_only_buildTransaction|]. intros tx.
  apply emits_only_bind; [|intros ?; apply emits_only_ret].
  apply emits_only_call_out. exact I.
Qed.

(** *** Payments never reach the ledger *)

Lemma getEmployee_no_commitment E C address w employee w' :
  getEmployee E C address w = (Ok employee, w') -> salaryCommitment employee = None.
Proof.
  unfold getEmployee. intros H.
  apply bind_Ok_inv in H as (ct & v1 & _ & H).
  apply bind_Ok_inv in H as (tx & v2 & _ & H).
  apply bind_Ok_inv in H as (res & v3 & _ & H).
  injection H as <- _. reflexivity.
Qed.

Lemma emits_only_processPayment E C params :
  emits_only is_read (processPayment E C params).
Proof.
  unfold processPayment.
  apply emits_only_bind.
  { apply emits_only_silent. intros w r w' [= _ <-]. reflexivity. }
  intros [bf|]; [|apply emits_only_throw].
  apply emits_only_bind'.
  { apply (emits_only_simulate E C (registry C) "get_employee"
             [VStr (pay_employeeAddress params)] parseEmployeeResult). }
  intros w employee w1 Hemp.
  apply getEmployee_no_commitment in Hemp.
  apply emits_only_bind'.
  - apply emits_only_silent. intros v r v'.
    rewrite generatePaymentProof_undefined by exact Hemp.
    intros [= _ <-]. reflexivity.
  - intros v proof v1. rewrite generatePaymentProof_undefined by exact Hemp.
    discriminate.
Qed.

Lemma processPayment_not_Ok E C params w r w' :
  processPayment E C params w <> (Ok r, w').
Proof.
  intros H. unfold processPayment in H.
  apply bind_Ok_inv in H as (stored & w1 & _ & H).
  destruct stored as [bf|]; [|discriminate H].
  apply bind_Ok_inv in H as (employee & w2 & Hemp & H).
  apply getEmployee_no_commitment in Hemp.
  apply bind_Ok_inv in H as (proof & w3 & Hproof & _).
  rewrite generatePaymentProof_undefined in Hproof by exact Hemp.
  discriminate Hproof.
Qed.

Lemma emits_only_processPayroll_loop E C params employees : forall results,
  emits_only is_read_or_warning (processPayroll_loop E C params employees results).
Proof.
  induction employees as [|a rest IH]; intros results; cbn [processPayroll_loop].
  - apply emits_only_ret.
  - apply emits_only_bind; [|intros ?; apply IH].
    intros w r w'. rewrite processPayroll_body_run.
    destruct (blindingFactors w !! storeKey (roll_companyId params) a).
    + destruct (processPayment E C (payrollPayment params a) w) as [[res|e] w1] eqn:Hpay;
        intros [= _ <-];
        destruct (emits_only_processPayment E C _ _ _ _ Hpay) as (events & Ht & HP);
        exists events; (split; [exact Ht|]);
        (eapply Forall_impl; [exact HP|]); intros [] H; (exact H || destruct H).
    + intros [= _ <-]. eexists [_]. split; [reflexivity|]. repeat constructor.
Qed.

Lemma payroll_run_all_failed E C params employees w results w' :
  payroll_run E C params employees w results w' ->
  Forall (fun r => success r = false /\ transactionHash r = None) results.
Proof.
  induction 1 as [w0|a rest w0 rs0 w1 _ _ IH
                 |a rest w0 r w1 rs0 w2 _ Hpay _ IH
                 |a rest w0 err w1 rs0 w2 _ _ _ IH].
  - constructor.
  - exact IH.
  - exfalso. exact (processPayment_not_Ok _ _ _ _ _ _ Hpay).
  - constructor; [split; reflexivity | exact IH].
Qed.

(** X15.  With the result parsers as they stand no payment reaches the
    ledger: [processPayment] makes no outside call but reads of the ledger
    (it never calls the prover and never sends a transaction);
    [processPayroll] returns only failed results, having made only reads and
    console warnings; and without an explicit employee list it returns the
    empty list and does nothing at all. *)
Theorem processPayroll_pays_nobody
    (E : Env) (C : Config) (payment : ProcessPaymentParams)
    (params : ProcessPayrollParams) (w : World) :
  (exists events,
      trace (snd (processPayment E C payment w)) = trace w ++ events /\
      Forall is_read events) /\
  (exists results w',
      processPayroll E C params w = (Ok results, w') /\
      Forall (fun r => success r = false /\ transactionHash r = None) results /\
      exists events, trace w' = trace w ++ events /\ Forall is_read_or_warning events) /\
  (roll_employees params = None -> processPayroll E C params w = (Ok [], w)).
Proof.
  split; [|split].
  - apply (emits_only_processPayment E C payment w _ _ (surjective_pairing _)).
  - destruct (processPayroll_loop_run E C params (payrollEmployees params) [] w)
      as (rs & w' & Hrun & Hspec & _ & _).
    assert (Hroll : processPayroll E C params w = (Ok rs, w')).
    { unfold processPayroll, payrollEmployees in *.
      destruct (roll_employees params); exact Hrun. }
    exists rs, w'. split; [exact Hroll|]. split.
    + exact (payroll_run_all_failed _ _ _ _ _ _ _ Hspec).
    + exact (emits_only_processPayroll_loop E C params _ [] w _ _ Hrun).
  - intros Hnone. unfold processPayroll. rewrite Hnone. reflexivity.
Qed.

(** *** The store is written by three operations only *)



(** X17.  The read queries answer with placeholders: whatever the ledger
    simulates, [getCompany] returns a company with no field set and
    [isPaymentComplete] returns [false]; both make only reads of the ledger,
    and both return when the contract is constructed and the ledger answers. *)
Theorem queries_return_placeholders
    (E : Env) (C : Config) (companyId employee : string) (period : Z) (w : World) :
  (forall company w', getCompany E C companyId w = (Ok company, w') ->
     company = parseCompanyResult tt) /\
  (forall paid w', isPaymentComplete E C employee period w = (Ok paid, w') ->
     paid = false) /\
  emits_only is_read (getCompany E C companyId) /\
  emits_only is_read (isPaymentComplete E C employee period) /\
  (Contract_new E (executor C) = Ok tt ->
   server_getAccount E w (publicKey C) = Ok tt ->
   (forall tx, server_simulateTransaction E (emit (GetAccount (publicKey C)) w) tx
               = Ok tt) ->
   fst (isPaymentComplete E C employee period w) = Ok false).
Proof.
  split; [|split; [|split; [|split]]].
  - intros company w' H. unfold getCompany in H.
    apply bind_Ok_inv in H as (ct & v1 & _ & H).
    apply bind_Ok_inv in H as (tx & v2 & _ & H).
    apply bind_Ok_inv in H as (res & v3 & _ & H).
    injection H as <- _. reflexivity.
  - intros paid w' H. unfold isPaymentComplete in H.
    apply bind_Ok_inv in H as (ct & v1 & _ & H).
    apply bind_Ok_inv in H as (tx & v2 & _ & H).
    apply bind_Ok_inv in H as (res & v3 & _ & H).
    injection H as <- _. reflexivity.
  - apply (emits_only_simulate E C (registry C) "get_company" [VStr companyId]
             parseCompanyResult).
  - apply (emits_only_simulate E C (executor C) "is_paid"
             [VStr employee; VNum period] parseBoolResult).
  - intros Hc Hacc Hsim. unfold isPaymentComplete.
    rewrite (bind_run_Ok _ _ w (executor C) w)
      by (rewrite new_Contract_run, Hc; reflexivity).
    unfold bind at 1. rewrite buildTransaction_run, Hacc.
    unfold bind, call_out, ret. rewrite Hsim. reflexivity.
Qed.

(** *** Adding an employee *)

Lemma addEmployee_run E C params w :
  let fresh :=
    map (fun i : nat => getRandomValues E (randomDraws w) i mod 256) (seq 0 32) in
  let key := storeKey (add_companyId params) (add_employeeAddress params) in
  let commitment :=
    bigIntToBytes (poseidon_at E w [add_salary params; bytesToBigInt fresh]) in
  let operation :=
    contract_call (registry C) "add_employee"
      [VStr (add_companyId params); VStr (add_employeeAddress params);
       VBytes commitment] in
  let stored :=
    set_blindingFactors (<[key := fresh]> (blindingFactors w))
      (set_poseidonInstance (Some (poseidon_at E w))
         (set_randomDraws (S (randomDraws w)) w)) in
  addEmployee E C params w
  = match Contract_new E (registry C) with
    | Throw e => (Throw e, stored)
    | Ok _ =>
        match server_getAccount E stored (publicKey C) with
        | Throw e => (Throw e, emit (GetAccount (publicKey C)) stored)
        | Ok _ =>
            match server_sendTransaction E (emit (GetAccount (publicKey C)) stored)
                    (signedTx C operation) with
            | Throw e => (Throw e, after_submit C operation stored)
            | Ok _ =>
                (Ok {| emp_address := Some (add_employeeAddress params);
                       emp_companyId := Some (add_companyId params);
                       salaryCommitment := Some commitment;
                       emp_isActive := Some true;
                       lastPaymentTimestamp := Some 0 |},
                 after_submit C operation stored)
            end
        end
    end.
Proof.
  intros fresh key commitment operation stored. unfold addEmployee.
  rewrite (bind_run_Ok _ _ _ _ _ (generateBlindingFactor_run E w)).
  rewrite (bind_run_Ok _ _ _ _ _ (generateCommitment_run E _ _ _)).
  unfold bind at 1. unfold blindingFactors_set at 1.
  unfold bind at 1. rewrite new_Contract_run.
  destruct (Contract_new E (registry C)) as [[]|e]; [|reflexivity].
  rewrite build_submit_run. reflexivity.
Qed.

(** X18.  The commitment [addEmployee] returns opens with the secret it
    stored: when [addEmployee] succeeds, the employee it returns carries a
    commitment for which [verifyCommitment], with the salary given and the
    blinding factor now stored under [companyId:employeeAddress], answers
    [true]; that same commitment is the one submitted to the registry. *)
Theorem addEmployee_commitment_opens
    (E : Env) (C : Config) (params : AddEmployeeParams) (w : World)
    (employee : Employee) :
  fst (addEmployee E C params w) = Ok employee ->
  let w' := snd (addEmployee E C params w) in
  exists commitment blindingFactor,
    salaryCommitment employee = Some commitment /\
    blindingFactors w' !! storeKey (add_companyId params) (add_employeeAddress params)
    = Some blindingFactor /\
    length blindingFactor = 32%nat /\
    fst (verifyCommitment E commitment (add_salary params) blindingFactor w') = Ok true /\
    last (trace w')
    = Some (SendTransaction
              (signedTx C
                 (contract_call (registry C) "add_employee"
                    [VStr (add_companyId params); VStr (add_employeeAddress params);
                     VBytes commitment]))).
Proof.
  intros H w'. subst w'. revert H. rewrite addEmployee_run.
  destruct (Contract_new E (registry C)) as [[]|e]; [|discriminate].
  destruct (server_getAccount E _ (publicKey C)) as [[]|e]; [|discriminate].
  destruct (server_sendTransaction E _ _) as [[]|e]; [|discriminate].
  cbn [fst snd]. intros H.
  eexists _, _. split; [injection H as <-; reflexivity|].
  split; [apply lookup_insert_eq|]. split; [reflexivity|]. split.
  - rewrite verifyCommitment_run. cbn [fst].
    match goal with
    | |- Ok (areEqual ?a ?b) = _ =>
        assert (Heq : areEqual a b = true) by (apply areEqual_true_iff; reflexivity)
    end.
    rewrite Heq. reflexivity.
  - unfold after_submit, emit. cbn [trace]. apply last_snoc.
Qed.

Lemma addEmployee_commitment_opens_witness :
  exists employee commitment blindingFactor,
    fst (addEmployee Fixtures.stubEnv Fixtures.stubConfig MoreFixtures.sampleEmployee
           Fixtures.emptyWorld) = Ok employee /\
    salaryCommitment employee = Some commitment /\
    blindingFactors
      (snd (addEmployee Fixtures.stubEnv Fixtures.stubConfig
              MoreFixtures.sampleEmployee Fixtures.emptyWorld))
      !! "ACME:GCAROL"%string = Some blindingFactor /\
    fst (verifyCommitment Fixtures.stubEnv commitment 500000 blindingFactor
           (snd (addEmployee Fixtures.stubEnv Fixtures.stubConfig
                   MoreFixtures.sampleEmployee Fixtures.emptyWorld))) = Ok true.
Proof.
  let r := eval vm_compute in
      (fst (addEmployee Fixtures.stubEnv Fixtures.stubConfig
              MoreFixtures.sampleEmployee Fixtures.emptyWorld)) in
  lazymatch r with
  | Ok ?employee =>
      assert (H : fst (addEmployee Fixtures.stubEnv Fixtures.stubConfig
                         MoreFixtures.sampleEmployee Fixtures.emptyWorld) = Ok employee)
        by (vm_compute; reflexivity);
      exists employee
  end.
  destruct (addEmployee_commitment_opens Fixtures.stubEnv Fixtures.stubConfig
              MoreFixtures.sampleEmployee Fixtures.emptyWorld _ H)
    as (commitment & bf & Hc & Hbf & _ & Hv & _).
  exists commitment, bf. split; [exact H|]. split; [exact Hc|].
  split; [exact Hbf | exact Hv].
Defined.


Lemma deactivateEmployee_Ok_store E C params w :
  fst (deactivateEmployee E C params w) = Ok tt ->
  blindingFactors (snd (deactivateEmployee E C params w))
  = delete (storeKey (deact_companyId params) (deact_employeeAddress params))
      (blindingFactors w).
Proof.
  assert (Hrun : deactivateEmployee E C params w
                 = match Contract_new E (registry C) with
                   | Throw e => (Throw e, w)
                   | Ok _ =>
                       (let* tx :=
                          buildTransaction E C
                            (contract_call (registry C) "deactivate_employee"
                               [VStr (deact_companyId params);
                                VStr (deact_employeeAddress params)]) in
                        let* _ := submitTransaction E C tx in
                        blindingFactors_delete
                          (storeKey (deact_companyId params)
                             (deact_employeeAddress params))) w
                   end).
  { unfold deactivateEmployee. unfold bind at 1. rewrite new_Contract_run.
    destruct (Contract_new E (registry C)) as [[]|e]; reflexivity. }
  rewrite Hrun. clear Hrun.
  destruct (Contract_new E (registry C)) as [[]|e]; [|discriminate].
  rewrite build_submit_run.
  destruct (server_getAccount E w (publicKey C)) as [[]|e]; [|discriminate].
  destruct (server_sendTransaction E _ _) as [[]|e]; [|discriminate].
  reflexivity.
Qed.

(** X20.  The lifecycle composes: after [addEmployee] (whatever its outcome)
    followed by a [deactivateEmployee] of the same employee that completes,
    the store is the initial one without that employee's key, and
    [processPayment] for that employee throws the missing-blinding-factor
    error without any outside call. *)
Theorem add_then_deactivate_forgets_secret
    (E : Env) (C : Config) (companyId employee : string) (salary amount period : Z)
    (w : World) :
  let added :=
    snd (addEmployee E C
           {| add_companyId := companyId; add_employeeAddress := employee;
              add_salary := salary |} w) in
  let deactivation :=
    deactivateEmployee E C
      {| deact_companyId := companyId; deact_employeeAddress := employee |} added in
  fst deactivation = Ok tt ->
  blindingFactors (snd deactivation)
  = delete (storeKey companyId employee) (blindingFactors w) /\
  processPayment E C
    {| pay_companyId := companyId; pay_employeeAddress := employee;
       pay_amount := amount; pay_period := period |} (snd deactivation)
  = (Throw blindingFactorNotFound, snd deactivation).
Proof.
  intros added deactivation Hok.
  assert (Hstore : blindingFactors (snd deactivation)
                   = delete (storeKey companyId employee) (blindingFactors w)).
  { subst deactivation. rewrite (deactivateEmployee_Ok_store E C _ added Hok).
    cbn [deact_companyId deact_employeeAddress]. subst added.
    rewrite addEmployee_run. cbn [add_companyId add_employeeAddress].
    destruct (Contract_new E (registry C)) as [[]|e0];
      [destruct (server_getAccount E _ (publicKey C)) as [[]|e1];
       [destruct (server_sendTransaction E _ _) as [[]|e2]|]|];
      cbn [snd]; apply delete_insert_eq. }
  split; [exact Hstore|].
  unfold processPayment, bind, blindingFactors_get.
  cbn [pay_companyId pay_employeeAddress].
  rewrite Hstore, lookup_delete_eq. reflexivity.
Qed.

Lemma add_then_deactivate_forgets_secret_witness :
  blindingFactors
    (snd (deactivateEmployee Fixtures.stubEnv Fixtures.stubConfig
            {| deact_companyId := "ACME"; deact_employeeAddress := "GALICE" |}
            (snd (addEmployee Fixtures.stubEnv Fixtures.stubConfig
                    {| add_companyId := "ACME"; add_employeeAddress := "GALICE";
                       add_salary := 700000 |} Fixtures.twoEmployees))))
  = delete (storeKey "ACME" "GALICE") (blindingFactors Fixtures.twoEmployees) /\
  processPayment Fixtures.stubEnv Fixtures.stubConfig
    {| pay_companyId := "ACME"; pay_employeeAddress := "GALICE";
       pay_amount := 700000; pay_period := 202601 |}
    (snd (deactivateEmployee Fixtures.stubEnv Fixtures.stubConfig
            {| deact_companyId := "ACME"; deact_employeeAddress := "GALICE" |}
            (snd (addEmployee Fixtures.stubEnv Fixtures.stubConfig
                    {| add_companyId := "ACME"; add_employeeAddress := "GALICE";
                       add_salary := 700000 |} Fixtures.twoEmployees))))
  = (Throw blindingFactorNotFound,
     snd (deactivateEmployee Fixtures.stubEnv Fixtures.stubConfig
            {| deact_companyId := "ACME"; deact_employeeAddress := "GALICE" |}
            (snd (addEmployee Fixtures.stubEnv Fixtures.stubConfig
                    {| add_companyId := "ACME"; add_employeeAddress := "GALICE";
                       add_salary := 700000 |} Fixtures.twoEmployees)))).
Proof.
  apply (add_then_deactivate_forgets_secret Fixtures.stubEnv Fixtures.stubConfig
           "ACME" "GALICE" 700000 700000 202601 Fixtures.twoEmployees).
  vm_compute. reflexivity.
Defined.

Lemma updateSalary_run E C params w :
  let fresh :=
    map (fun i : nat => getRandomValues E (randomDraws w) i mod 256) (seq 0 32) in
  let key := storeKey (upd_companyId params) (upd_employeeAddress params) in
  let commitment :=
    bigIntToBytes (poseidon_at E w [upd_newSalary params; bytesToBigInt fresh]) in
  let operation :=
    contract_call (registry C) "update_salary_commitment"
      [VStr (upd_companyId params); VStr (upd_employeeAddress params);
       VBytes commitment] in
  let stored :=
    set_blindingFactors (<[key := fresh]> (blindingFactors w))
      (set_poseidonInstance (Some (poseidon_at E w))
         (set_randomDraws (S (randomDraws w)) w)) in
  updateSalary E C params w
  = match Contract_new E (registry C) with
    | Throw e => (Throw e, stored)
    | Ok _ =>
        match server_getAccount E stored (publicKey C) with
        | Throw e => (Throw e, emit (GetAccount (publicKey C)) stored)
        | Ok _ =>
            match server_sendTransaction E (emit (GetAccount (publicKey C)) stored)
                    (signedTx C operation) with
            | Throw e => (Throw e, after_submit C operation stored)
            | Ok _ => (Ok tt, after_submit C operation stored)
            end
        end
    end.
Proof.
  intros fresh key commitment operation stored. unfold updateSalary.
  rewrite (bind_run_Ok _ _ _ _ _ (generateBlindingFactor_run E w)).
  rewrite (bind_run_Ok _ _ _ _ _ (generateCommitment_run E _ _ _)).
  unfold bind at 1. unfold blindingFactors_set at 1.
  unfold bind at 1. rewrite new_Contract_run.
  destruct (Contract_new E (registry C)) as [[]|e]; [|reflexivity].
  rewrite build_submit_run. reflexivity.
Qed.

(** X21.  The commitment [updateSalary] submits opens with the secret it
    stored: when [updateSalary] completes, the last thing it did was to send
    [update_salary_commitment] with a commitment for which
    [verifyCommitment], with the new salary and the blinding factor now
    stored for the employee, answers [true]. *)
Theorem updateSalary_commitment_opens
    (E : Env) (C : Config) (params : UpdateSalaryParams) (w : World) :
  fst (updateSalary E C params w) = Ok tt ->
  let w' := snd (updateSalary E C params w) in
  exists commitment blindingFactor,
    blindingFactors w' !! storeKey (upd_companyId params) (upd_employeeAddress params)
    = Some blindingFactor /\
    last (trace w')
    = Some (SendTransaction
              (signedTx C
                 (contract_call (registry C) "update_salary_commitment"
                    [VStr (upd_companyId params); VStr (upd_employeeAddress params);
                     VBytes commitment]))) /\
    fst (verifyCommitment E commitment (upd_newSalary params) blindingFactor w') = Ok true.
Proof.
  intros H w'. subst w'. revert H. rewrite updateSalary_run.
  destruct (Contract_new E (registry C)) as [[]|e]; [|discriminate].
  destruct (server_getAccount E _ (publicKey C)) as [[]|e]; [|discriminate].
  destruct (server_sendTransaction E _ _) as [[]|e]; [|discriminate].
  cbn [fst snd]. intros _.
  eexists _, _. split; [apply lookup_insert_eq|]. split.
  - unfold after_submit, emit. cbn [trace]. apply last_snoc.
  - rewrite verifyCommitment_run. cbn [fst].
    match goal with
    | |- Ok (areEqual ?a ?b) = _ =>
        assert (Heq : areEqual a b = true) by (apply areEqual_true_iff; reflexivity)
    end.
    rewrite Heq. reflexivity.
Qed.

Lemma updateSalary_commitment_opens_witness :
  exists commitment blindingFactor,
    blindingFactors
      (snd (updateSalary Fixtures.stubEnv Fixtures.stubConfig
              {| upd_companyId := "ACME"; upd_employeeAddress := "GBOB";
                 upd_newSalary := 650000 |} Fixtures.twoEmployees))
      !! "ACME:GBOB"%string = Some blindingFactor /\
    last (trace
            (snd (updateSalary Fixtures.stubEnv Fixtures.stubConfig
                    {| upd_companyId := "ACME"; upd_employeeAddress := "GBOB";
                       upd_newSalary := 650000 |} Fixtures.twoEmployees)))
    = Some (SendTransaction
              (signedTx Fixtures.stubConfig
                 (contract_call "CREGISTRY" "update_salary_commitment"
                    [VStr "ACME"; VStr "GBOB"; VBytes commitment]))) /\
    fst (verifyCommitment Fixtures.stubEnv commitment 650000 blindingFactor
           (snd (updateSalary Fixtures.stubEnv Fixtures.stubConfig
                   {| upd_companyId := "ACME"; upd_employeeAddress := "GBOB";
                      upd_newSalary := 650000 |} Fixtures.twoEmployees))) = Ok true.
Proof.
  apply (updateSalary_commitment_opens Fixtures.stubEnv Fixtures.stubConfig
           {| upd_companyId := "ACME"; upd_employeeAddress := "GBOB";
              upd_newSalary := 650000 |} Fixtures.twoEmployees).
  vm_compute. reflexivity.
Defined.

(** *** Operations that only submit one transaction *)

Lemma submit_only_run E C address method args {A} (v : A) w :
  (let* contract := new_Contract E address in
   let* tx := buildTransaction E C (contract_call contract method args) in
   let* _ := submitTransaction E C tx in
   ret v) w
  = let operation := contract_call address method args in
    match Contract_new E address with
    | Throw e => (Throw e, w)
    | Ok _ =>
        match server_getAccount E w (publicKey C) with
        | Throw e => (Throw e, emit (GetAccount (publicKey C)) w)
        | Ok _ =>
            match server_sendTransaction E (emit (GetAccount (publicKey C)) w)
                    (signedTx C operation) with
            | Throw e => (Throw e, after_submit C operation w)
            | Ok _ => (Ok v, after_submit C operation w)
            end
        end
    end.
Proof.
  unfold bind at 1. rewrite new_Contract_run.
  destruct (Contract_new E address) as [[]|e]; [|reflexivity].
  rewrite build_submit_run. reflexivity.
Qed.

Lemma submit_only_Ok E C address method args {A} (v r : A) w w' :
  (let* contract := new_Contract E address in
   let* tx := buildTransaction E C (contract_call contract method args) in
   let* _ := submitTransaction E C tx in
   ret v) w = (Ok r, w')
  <-> ledger_accepts E C (contract_call address method args) w /\
      r = v /\ w' = after_submit C (contract_call address method args) w.
Proof.
  rewrite submit_only_run. unfold ledger_accepts. cbn [op_contract contract_call].
  cbv zeta.
  destruct (Contract_new E address) as [[]|e0].
  - destruct (server_getAccount E w (publicKey C)) as [[]|e1].
    + destruct (server_sendTransaction E _ _) as [[]|e2].
      * split; [intros [= <- <-]; auto | intros (_ & -> & ->); reflexivity].
      * split; [discriminate | intros ((_ & _ & ?) & _); discriminate].
    + split; [discriminate | intros ((_ & ? & _) & _); discriminate].
  - split; [discriminate | intros ((? & _) & _); discriminate].
Qed.

(** X22.  [registerCompany] and [revokeViewKey] each submit one transaction
    and read nothing back.  [registerCompany] returns exactly when the ledger
    accepts [register_company(companyId, admin, treasury)] with the caller's
    key as admin, and the company it returns is assembled locally: no
    employees, active, whatever the ledger recorded.  [revokeViewKey]
    completes exactly when the ledger accepts
    [revoke_view_key(caller, keyId)].  When either throws, at most that one
    transaction was sent. *)
Theorem registerCompany_revokeViewKey_submit_once
    (E : Env) (C : Config) (companyId treasuryAddress keyId : string) (w : World) :
  let register :=
    contract_call (registry C) "register_company"
      [VStr companyId; VStr (publicKey C); VStr treasuryAddress] in
  let revoke :=
    contract_call (executor C) "revoke_view_key" [VStr (publicKey C); VStr keyId] in
  (forall company w',
     registerCompany E C companyId treasuryAddress w = (Ok company, w')
     <-> ledger_accepts E C register w /\
         company = {| co_id := Some companyId; co_admin := Some (publicKey C);
                      co_treasury := Some treasuryAddress;
                      employeeCount := Some 0; co_isActive := Some true |} /\
         w' = after_submit C register w) /\
  (forall w',
     revokeViewKey E C keyId w = (Ok tt, w')
     <-> ledger_accepts E C revoke w /\ w' = after_submit C revoke w) /\
  (forall e w', registerCompany E C companyId treasuryAddress w = (Throw e, w') ->
     exists events,
       trace w' = trace w ++ events /\
       (events = [] \/ events = [GetAccount (publicKey C)] \/
        events = [GetAccount (publicKey C); SendTransaction (signedTx C register)])) /\
  (forall e w', revokeViewKey E C keyId w = (Throw e, w') ->
     exists events,
       trace w' = trace w ++ events /\
       (events = [] \/ events = [GetAccount (publicKey C)] \/
        events = [GetAccount (publicKey C); SendTransaction (signedTx C revoke)])).
Proof.
  intros register revoke.
  assert (Hthrow : forall address method args (A : Type) (v : A) e w',
             (let* contract := new_Contract E address in
              let* tx := buildTransaction E C (contract_call contract method args) in
              let* _ := submitTransaction E C tx in
              ret v) w = (Throw e, w') ->
             exists events,
               trace w' = trace w ++ events /\
               (events = [] \/ events = [GetAccount (publicKey C)] \/
                events = [GetAccount (publicKey C);
                          SendTransaction
                            (signedTx C (contract_call address method args))])).
  { intros address method args A v e w'. rewrite submit_only_run. cbv zeta.
    destruct (Contract_new E address) as [[]|e0].
    - destruct (server_getAccount E w (publicKey C)) as [[]|e1].
      + destruct (server_sendTransaction E _ _) as [[]|e2]; [discriminate|].
        intros [= _ <-]. eexists. split; [|right; right; reflexivity].
        unfold after_submit, emit. cbn [trace]. rewrite <- app_assoc. reflexivity.
      + intros [= _ <-]. eexists. split; [|right; left; reflexivity]. reflexivity.
    - intros [= _ <-]. exists []. split; [|left; reflexivity].
      rewrite app_nil_r. reflexivity. }
  split; [|split; [|split]].
  - intros company w'. apply submit_only_Ok.
  - intros w'. unfold revokeViewKey. rewrite submit_only_Ok. fold revoke.
    split; [intros (? & _ & ?); auto | intros (? & ?); auto].
  - intros e w'. apply Hthrow.
  - intros e w'. apply Hthrow.
Qed.

(** X23.  [mapAuditScope] turns the bounds of a time range into whole
    seconds by rounding down, also before 1970: each bound [s] satisfies
    [1000 s <= ms < 1000 s + 1000]; a well-ordered range stays well-ordered
    and strictly ordered seconds come only from a strictly ordered range.
    ['full'] and ['aggregate'] ignore the time range. *)
Theorem mapAuditScope_seconds (start_ms end_ms : Z) (range : option (Z * Z)) :
  (exists s e,
      mapAuditScope "timeRange" (Some (start_ms, end_ms)) = Ok (TimeRange s e) /\
      1000 * s <= start_ms < 1000 * s + 1000 /\
      1000 * e <= end_ms < 1000 * e + 1000 /\
      (start_ms <= end_ms -> s <= e) /\
      (s < e -> start_ms < end_ms)) /\
  mapAuditScope "full" range = Ok FullCompany /\
  mapAuditScope "aggregate" range = Ok AggregateOnly.
Proof.
  split; [|split; reflexivity].
  exists (start_ms / 1000), (end_ms / 1000). split; [reflexivity|].
  pose proof (Z.div_mod start_ms 1000 ltac:(lia)) as Hs.
  pose proof (Z.mod_pos_bound start_ms 1000 ltac:(lia)) as Hsb.
  pose proof (Z.div_mod end_ms 1000 ltac:(lia)) as He.
  pose proof (Z.mod_pos_bound end_ms 1000 ltac:(lia)) as Heb.
  repeat split; lia.
Qed.

End ClientMoreProperties.

(** ** [PayrollService.filterTransactions] *)

Module ServiceProperties.
Import Service.

(** X24.  [filterTransactions] keeps, in their order, exactly the
    transactions whose amount is strictly above [minAmount] (an amount equal
    to it is dropped); filtering the result again with a threshold at least
    as high is the same as filtering the input with that threshold. *)
Theorem filterTransactions_strict_threshold
    {X : Type} (transactions : list (Transaction X)) (criteria stricter : FilterCriteria)
    (t : Transaction X) :
  (In t (filterTransactions transactions criteria)
   <-> In t transactions /\ amount t > minAmount criteria) /\
  sublist (filterTransactions transactions criteria) transactions /\
  (amount t = minAmount criteria -> ~ In t (filterTransactions transactions criteria)) /\
  (minAmount criteria <= minAmount stricter ->
   filterTransactions (filterTransactions transactions criteria) stricter
   = filterTransactions transactions stricter).
Proof.
  unfold filterTransactions.
  assert (Hin : forall u, In u (List.filter (fun t => minAmount criteria <? amount t)
                                  transactions)
                          <-> In u transactions /\ amount u > minAmount criteria).
  { intros u. rewrite filter_In, Z.ltb_lt. split; intros [? ?]; split; (assumption || lia). }
  split; [apply Hin|]. split; [|split].
  - induction transactions as [|u rest IH]; cbn [List.filter].
    + constructor.
    + destruct (minAmount criteria <? amount u).
      * apply sublist_skip. apply IH. intros v. rewrite filter_In, Z.ltb_lt.
        split; intros [? ?]; split; (assumption || lia).
      * apply sublist_cons. apply IH. intros v. rewrite filter_In, Z.ltb_lt.
        split; intros [? ?]; split; (assumption || lia).
  - intros Heq Hmem. apply Hin in Hmem as [_ Hgt]. lia.
  - intros Hle. clear Hin. induction transactions as [|u rest IH]; [reflexivity|].
    cbn [List.filter].
    destruct (minAmount criteria <? amount u) eqn:Hc; cbn [List.filter].
    + rewrite IH. reflexivity.
    + rewrite IH. destruct (minAmount stricter <? amount u) eqn:Hs; [|reflexivity].
      apply Z.ltb_lt in Hs. apply Z.ltb_ge in Hc. lia.
Qed.

End ServiceProperties.
